(** * SublimeColorSchemeConverter: colour resolution and document flattening

    A shallow embedding of [sublime_color_scheme_converter.py].  The Python
    run-time notions the program relies on (strings, exceptions, truthiness,
    [re], binary64 floats, [str.format], [colorsys], insertion-ordered
    dictionaries) are modelled first; the functions of the program follow,
    under the names they have in the source. *)

From Stdlib Require Import ZArith List Ascii String HexString Bool Lia.
From Stdlib Require Import Floats.SpecFloat.
From Stdlib Require Floats.PrimFloat Floats.FloatOps.
From Stdlib Require Import Numbers.Cyclic.Int63.PrimInt63.
Import ListNotations.
Open Scope string_scope.
Open Scope list_scope.
Open Scope Z_scope.

(** ** Strings

    A Python [str] is a sequence of code points; the model keeps the code
    points below 256, which covers every character the patterns of the
    program name explicitly. *)

Definition str := list ascii.

Coercion list_ascii_of_string : string >-> list.

Definition code (c : ascii) : Z := Z.of_nat (nat_of_ascii c).

Definition between (lo hi : Z) (c : ascii) : bool :=
  (lo <=? code c) && (code c <=? hi).

Fixpoint str_eqb (a b : str) : bool :=
  match a, b with
  | [], [] => true
  | x :: a', y :: b' => Ascii.eqb x y && str_eqb a' b'
  | _, _ => false
  end.

Fixpoint starts_with (p s : str) : bool :=
  match p, s with
  | [], _ => true
  | x :: p', y :: s' => Ascii.eqb x y && starts_with p' s'
  | _ :: _, [] => false
  end.

(** [s[:n]] and [s[n:]] for a non-negative constant [n]. *)
Definition slice_to (n : nat) (s : str) : str := firstn n s.
Definition slice_from (n : nat) (s : str) : str := skipn n s.

(** [s.replace(old, new)]: every non-overlapping occurrence, left to right.
    [skip] counts the characters of an occurrence still to be dropped. *)
Fixpoint replace_scan (old new s : str) (skip : nat) : str :=
  match s with
  | [] => []
  | c :: t =>
      match skip with
      | S k => replace_scan old new t k
      | O =>
          if starts_with old s
          then new ++ replace_scan old new t (Nat.pred (List.length old))
          else c :: replace_scan old new t O
      end
  end.

Definition str_replace (s old new : str) : str :=
  match old with
  | [] => new ++ flat_map (fun c => c :: new) s
  | _ :: _ => replace_scan old new s O
  end.

(** ** Exceptions *)

Inductive exn : Type :=
| ValueError
| OverflowError
| TypeError
| AttributeError
| KeyError (k : str).

Inductive res (A : Type) : Type :=
| Ok (a : A)
| Raise (e : exn).

Arguments Ok {A} a.
Arguments Raise {A} e.

Definition bind {A B : Type} (c : res A) (k : A -> res B) : res B :=
  match c with
  | Ok a => k a
  | Raise e => Raise e
  end.

Notation "x <- c ;; k" := (bind c (fun x => k))
  (at level 61, c at next level, right associativity).

(** ** Regular expressions: a backtracking matcher

    The matcher follows the strategy of Python's [re]: alternatives are tried
    left to right, [?] and [*] are greedy, and a failure of the rest of the
    pattern makes the matcher come back to the last choice.  The rest of the
    pattern is the continuation [k]. *)

Module Re.

Inductive regex : Type :=
| Eps
| Chr (c : ascii)
| Class (p : ascii -> bool)
| Cat (r1 r2 : regex)
| Alt (r1 r2 : regex)
| Opt (r : regex)
| Star (r : regex)
| Group (i : nat) (r : regex).

Definition Plus (r : regex) : regex := Cat r (Star r).

Fixpoint Rep (n : nat) (r : regex) : regex :=
  match n with
  | O => Eps
  | S n' => Cat r (Rep n' r)
  end.

Fixpoint Lit (s : str) : regex :=
  match s with
  | [] => Eps
  | c :: s' => Cat (Chr c) (Lit s')
  end.

(** Captured groups, the most recent binding first. *)
Definition caps := list (nat * str).

(** The rounds of a greedy [*]: [step] matches the body once.  Every round
    has to consume a character, so [List.length s] rounds are enough; when
    the body fails, or when the rest of the pattern fails after it, the rest
    is tried from the current position. *)
Fixpoint star_loop {A : Type}
    (step : str -> caps -> (str -> caps -> option A) -> option A)
    (k : str -> caps -> option A) (n : nat) (s : str) (g : caps)
    {struct n} : option A :=
  match n with
  | O => k s g
  | S n' =>
      match step s g
              (fun s' g' =>
                 if (List.length s' <? List.length s)%nat
                 then star_loop step k n' s' g' else None) with
      | Some a => Some a
      | None => k s g
      end
  end.

Fixpoint rmatch {A : Type} (r : regex) (s : str) (g : caps)
    (k : str -> caps -> option A) {struct r} : option A :=
  match r with
  | Eps => k s g
  | Chr c =>
      match s with
      | x :: s' => if Ascii.eqb x c then k s' g else None
      | [] => None
      end
  | Class p =>
      match s with
      | x :: s' => if p x then k s' g else None
      | [] => None
      end
  | Cat r1 r2 => rmatch r1 s g (fun s' g' => rmatch r2 s' g' k)
  | Alt r1 r2 =>
      match rmatch r1 s g k with
      | Some a => Some a
      | None => rmatch r2 s g k
      end
  | Opt r1 =>
      match rmatch r1 s g k with
      | Some a => Some a
      | None => k s g
      end
  | Star r1 => star_loop (rmatch r1) k (List.length s) s g
  | Group i r1 =>
      rmatch r1 s g
        (fun s' g' =>
           k s' ((i, firstn (List.length s - List.length s') s) :: g'))
  end.

(** A match object: where the match starts, its text, its groups, and the
    text that follows it. *)
Record pymatch : Type := {
  m_start : nat;
  m_text : str;
  m_groups : caps;
  m_rest : str
}.

Definition match_at (r : regex) (s : str) : option (str * caps) :=
  rmatch r s [] (fun s' g => Some (s', g)).

(** [pattern.search(s)]: the leftmost match. *)
Fixpoint search_from (r : regex) (pos : nat) (s : str) : option pymatch :=
  match match_at r s with
  | Some (s', g) =>
      Some {| m_start := pos;
              m_text := firstn (List.length s - List.length s') s;
              m_groups := g; m_rest := s' |}
  | None =>
      match s with
      | [] => None
      | _ :: t => search_from r (S pos) t
      end
  end.

Definition search (r : regex) (s : str) : option pymatch := search_from r O s.

(** [m.group(i)] for [i >= 1]; [None] when the group took no part. *)
Fixpoint lookup (i : nat) (g : caps) : option str :=
  match g with
  | [] => None
  | (j, t) :: g' => if Nat.eqb i j then Some t else lookup i g'
  end.

Definition group (m : pymatch) (i : nat) : option str := lookup i (m_groups m).

(** [re.sub(pattern, repl, s)] with [repl] a function of the groups.  [skip]
    counts the characters of the current match still to be dropped; an empty
    match is replaced and the scan moves on by one character. *)
Fixpoint sub_scan (r : regex) (repl : caps -> str) (s : str) (skip : nat)
    : str :=
  match s with
  | [] =>
      match skip, match_at r [] with
      | O, Some (_, g) => repl g
      | _, _ => []
      end
  | c :: t =>
      match skip with
      | S k => sub_scan r repl t k
      | O =>
          match match_at r s with
          | Some (s', g) =>
              match (List.length s - List.length s')%nat with
              | O => repl g ++ c :: sub_scan r repl t O
              | S k => repl g ++ sub_scan r repl t k
              end
          | None => c :: sub_scan r repl t O
          end
      end
  end.

Definition sub (r : regex) (repl : caps -> str) (s : str) : str :=
  sub_scan r repl s O.

(** Character classes of the patterns. *)

(** [\d]: the decimal digits (the only ones below code point 256). *)
Definition digit (c : ascii) : bool := between 48 57 c.

(** [\s]: the characters [str.isspace] accepts below code point 256. *)
Definition space (c : ascii) : bool :=
  between 9 13 c || between 28 32 c
  || (code c =? 133) || (code c =? 160).

Definition lower (c : ascii) : bool := between 97 122 c.
Definition upper (c : ascii) : bool := between 65 90 c.

(** [[0-9,a-z,A-Z]]: the comma is a member of the class. *)
Definition alnum_comma (c : ascii) : bool :=
  digit c || (code c =? 44) || lower c || upper c.

(** [[^\)]] *)
Definition not_rparen (c : ascii) : bool := negb (code c =? 41).

End Re.

Import Re.

(** The five patterns of the program (lines 20 to 24 of the source).  The
    comments show each pattern with blanks between its tokens. *)

(** [var\( [^\)]+ \)] *)
Definition re_var : regex :=
  Cat (Lit "var(") (Cat (Plus (Class not_rparen)) (Chr ")")).

(** [alpha\( ( (0\.)? [0-9]+ ) \)] *)
Definition re_alpha : regex :=
  Cat (Lit "alpha(")
   (Cat (Group 1 (Cat (Opt (Group 2 (Lit "0."))) (Plus (Class digit))))
        (Chr ")")).

(** [( # [0-9,a-z,A-Z]{6} ) ( [0-9,a-z,A-Z]{2} )?] *)
Definition re_hex : regex :=
  Cat (Group 1 (Cat (Chr "#") (Rep 6 (Class alnum_comma))))
      (Opt (Group 2 (Rep 2 (Class alnum_comma)))).

(** [rgb\( (\d+) , \s? (\d+) , \s? (\d+) ( , \s? ( \d+ \.? \d* ) )? \)] *)
Definition re_rgb : regex :=
  Cat (Lit "rgb(")
   (Cat (Group 1 (Plus (Class digit)))
   (Cat (Chr ",") (Cat (Opt (Class space))
   (Cat (Group 2 (Plus (Class digit)))
   (Cat (Chr ",") (Cat (Opt (Class space))
   (Cat (Group 3 (Plus (Class digit)))
   (Cat (Opt (Group 4
           (Cat (Chr ",") (Cat (Opt (Class space))
             (Group 5 (Cat (Plus (Class digit))
                        (Cat (Opt (Chr ".")) (Star (Class digit)))))))))
        (Chr ")"))))))))).

(** [hsl\( (\d+) , \s? (\d+) % , \s? (\d+) % ( , \s? ( \d+ \.? \d* ) )? \)] *)
Definition re_hsl : regex :=
  Cat (Lit "hsl(")
   (Cat (Group 1 (Plus (Class digit)))
   (Cat (Chr ",") (Cat (Opt (Class space))
   (Cat (Group 2 (Plus (Class digit)))
   (Cat (Chr "%") (Cat (Chr ",") (Cat (Opt (Class space))
   (Cat (Group 3 (Plus (Class digit)))
   (Cat (Chr "%")
   (Cat (Opt (Group 4
           (Cat (Chr ",") (Cat (Opt (Class space))
             (Group 5 (Cat (Plus (Class digit))
                        (Cat (Opt (Chr ".")) (Star (Class digit)))))))))
        (Chr ")"))))))))))).

(** ** Floats

    A Python [float] is an IEEE 754 binary64 number; the operations are the
    ones of the standard library's bit-level specification, instantiated at
    53 bits of precision. *)

Module Float.

Definition prec : Z := 53.
Definition emax : Z := 1024.

Definition float : Type := spec_float.

Definition add : float -> float -> float := SFadd prec emax.
Definition sub : float -> float -> float := SFsub prec emax.
Definition mul : float -> float -> float := SFmul prec emax.
Definition eqb : float -> float -> bool := SFeqb.
Definition ltb : float -> float -> bool := SFltb.
Definition leb : float -> float -> bool := SFleb.
Definition valid : float -> bool := valid_binary prec emax.

(** The float nearest to the integer [z]. *)
Definition of_Z (z : Z) : float := binary_normalize prec emax z 0 false.

(** The float nearest to the fraction [n / d]: the quotient of the division
    algorithm, rounded once. *)
Definition ratio (n : Z) (d : positive) : float :=
  match n with
  | Z0 => S754_zero false
  | Zpos p => SFdiv prec emax (S754_finite false p 0) (S754_finite false d 0)
  | Zneg p => SFdiv prec emax (S754_finite true p 0) (S754_finite false d 0)
  end.

Definition zero : float := S754_zero false.
Definition one : float := of_Z 1.
Definition two : float := of_Z 2.
Definition six : float := of_Z 6.
Definition half : float := ratio 1 2.

Definition is_finite (f : float) : bool :=
  match f with
  | S754_zero _ | S754_finite _ _ _ => true
  | _ => false
  end.

(** [int(f)]: the integer part, towards zero. *)
Definition trunc (f : float) : res Z :=
  match f with
  | S754_zero _ => Ok 0
  | S754_finite s m e => Ok (cond_Zopp s (Z.shiftl (Zpos m) e))
  | S754_infinity _ => Raise OverflowError
  | S754_nan => Raise ValueError
  end.

(** [x % 1.0]: C's [fmod], which is exact, then the adjustment that gives
    the result the sign of the divisor. *)
Definition mod1 (x : float) : float :=
  match x with
  | S754_zero _ => zero
  | S754_finite s m e =>
      let r := if 0 <=? e then 0 else Zpos m mod 2 ^ (- e) in
      if r =? 0 then zero
      else
        let f := binary_normalize prec emax (cond_Zopp s r) e false in
        if s then add f one else f
  | _ => S754_nan
  end.

End Float.

Import Float.

(** ** Values, truthiness and conversions *)

(** The values an alpha takes in the program: [None], the integer read
    back from a hexadecimal suffix, the float of an adjuster, or the text of
    a pattern group. *)
Inductive pyval : Type :=
| PyNone
| PyInt (z : Z)
| PyFloat (f : float)
| PyStr (s : str).

(** [if v:] *)
Definition truthy (v : pyval) : bool :=
  match v with
  | PyNone => false
  | PyInt z => negb (z =? 0)
  | PyFloat f => negb (Float.eqb f zero)
  | PyStr s => match s with [] => false | _ :: _ => true end
  end.

Definition digit_val (c : ascii) : Z := code c - 48.

Fixpoint digits_val (acc : Z) (s : str) : Z :=
  match s with
  | [] => acc
  | c :: s' => digits_val (10 * acc + digit_val c) s'
  end.

Definition all_digits (s : str) : bool :=
  match s with
  | [] => false
  | _ :: _ => forallb digit s
  end.

(** [sys.int_max_str_digits]: the longest text of digits that [int]
    converts. *)
Definition max_str_digits : Z := 4300.

(** [int(s)] on the text of a [\d+] group; a text of more than
    [max_str_digits] digits, leading zeros counted, is a [ValueError]. *)
Definition py_int (s : str) : res Z :=
  if all_digits s
  then if Z.of_nat (List.length s) <=? max_str_digits
       then Ok (digits_val 0 s)
       else Raise ValueError
  else Raise ValueError.

Definition hex_val (c : ascii) : option Z :=
  option_map Z.of_N (HexString.ascii_to_digit c).

Fixpoint hex_digits_val (acc : Z) (s : str) : option Z :=
  match s with
  | [] => Some acc
  | c :: s' =>
      match hex_val c with
      | Some d => hex_digits_val (16 * acc + d) s'
      | None => None
      end
  end.

(** [int(s, 16)] on the texts the program passes to it: characters of
    [[0-9,a-z,A-Z]] or the output of a hexadecimal format, so an optional
    sign and then hexadecimal digits; anything else is a [ValueError]. *)
Definition py_int16 (s : str) : res Z :=
  let '(neg, body) :=
    match s with
    | c :: s' =>
        if Ascii.eqb c "-" then (true, s')
        else if Ascii.eqb c "+" then (false, s') else (false, s)
    | [] => (false, s)
    end in
  match body with
  | [] => Raise ValueError
  | _ :: _ =>
      match hex_digits_val 0 body with
      | Some v => Ok (cond_Zopp neg v)
      | None => Raise ValueError
      end
  end.

Fixpoint split_dot (s : str) : str * option str :=
  match s with
  | [] => ([], None)
  | c :: s' =>
      if Ascii.eqb c "."
      then ([], Some s')
      else let '(a, b) := split_dot s' in (c :: a, b)
  end.

(** [float(s)] on the text of a group of the shape [\d+\.?\d*]: the float
    nearest to the decimal number. *)
Definition float_of_str (s : str) : res float :=
  let '(ip, fp) := split_dot s in
  let fp := match fp with Some t => t | None => [] end in
  if all_digits ip && forallb digit fp
  then Ok (ratio (digits_val 0 (ip ++ fp))
                 (Z.to_pos (10 ^ Z.of_nat (List.length fp))))
  else Raise ValueError.

(** [float(z)] for an integer raises when [z] is beyond the range. *)
Definition float_of_int (z : Z) : res float :=
  let f := of_Z z in
  if is_finite f then Ok f else Raise OverflowError.

(** [float(v)] *)
Definition py_float (v : pyval) : res float :=
  match v with
  | PyNone => Raise TypeError
  | PyInt z => float_of_int z
  | PyFloat f => Ok f
  | PyStr s => float_of_str s
  end.

(** [a / b] for integers, [b] a positive constant. *)
Definition truediv (a : Z) (b : positive) : res float :=
  let f := ratio a b in
  if is_finite f then Ok f else Raise OverflowError.

(** ["{:02x}".format(n)]: lower-case hexadecimal, zero-padded to two
    characters, the sign counted in the width. *)
Definition hex_of_pos (p : positive) : str :=
  list_ascii_of_string (HexString.Raw.of_pos p "").

Definition format_02x (n : Z) : str :=
  match n with
  | Z0 => "00"
  | Zpos p =>
      let d := hex_of_pos p in
      repeat "0"%char (2 - List.length d) ++ d
  | Zneg p => "-"%char :: hex_of_pos p
  end.

(** [m.group(i)] as a value. *)
Definition group_val (m : pymatch) (i : nat) : pyval :=
  match group m i with
  | Some t => PyStr t
  | None => PyNone
  end.

(** The text of a group that took part in the match; [""] stands for the
    [None] of a group that did not, and is only used where the pattern
    guarantees the group. *)
Definition group_str (m : pymatch) (i : nat) : str :=
  match group m i with
  | Some t => t
  | None => []
  end.

(** ** [colorsys.hls_to_rgb]

    The function of Python's standard library the program calls, with its
    three module constants. *)

Module Colorsys.

Definition ONE_THIRD : float := ratio 1 3.
Definition ONE_SIXTH : float := ratio 1 6.
Definition TWO_THIRD : float := ratio 2 3.

Definition _v (m1 m2 hue : float) : float :=
  let hue := mod1 hue in
  if Float.ltb hue ONE_SIXTH
  then Float.add m1 (Float.mul (Float.mul (Float.sub m2 m1) hue) six)
  else if Float.ltb hue half then m2
  else if Float.ltb hue TWO_THIRD
  then Float.add m1
         (Float.mul (Float.mul (Float.sub m2 m1) (Float.sub TWO_THIRD hue))
                    six)
  else m1.

Definition hls_to_rgb (h l s : float) : float * float * float :=
  if Float.eqb s zero then (l, l, l)
  else
    let m2 :=
      if Float.leb l half then Float.mul l (Float.add one s)
      else Float.sub (Float.add l s) (Float.mul l s) in
    let m1 := Float.sub (Float.mul two l) m2 in
    (_v m1 m2 (Float.add h ONE_THIRD), _v m1 m2 h,
     _v m1 m2 (Float.sub h ONE_THIRD)).

End Colorsys.

(** ** Dictionaries

    A Python [dict] holds each key once and keeps its keys in insertion
    order; assigning to a key that is present keeps its place. *)

Definition dict (V : Type) : Type := list (str * V).

Fixpoint dict_get {V : Type} (k : str) (d : dict V) : option V :=
  match d with
  | [] => None
  | (k', v) :: d' => if str_eqb k k' then Some v else dict_get k d'
  end.

Fixpoint dict_set {V : Type} (k : str) (v : V) (d : dict V) : dict V :=
  match d with
  | [] => [(k, v)]
  | (k', v') :: d' =>
      if str_eqb k k' then (k', v) :: d' else (k', v') :: dict_set k v d'
  end.

Fixpoint dict_remove {V : Type} (k : str) (d : dict V) : dict V :=
  match d with
  | [] => []
  | (k', v') :: d' =>
      if str_eqb k k' then d' else (k', v') :: dict_remove k d'
  end.

Definition dict_keys {V : Type} (d : dict V) : list str := map fst d.

(** [d.pop(k, None)]: the value, if any, and the dictionary without [k]. *)
Definition dict_pop {V : Type} (k : str) (d : dict V) : option V * dict V :=
  (dict_get k d, dict_remove k d).

(** * The program *)

(** [alpha_to_hex], lines 26 to 27. *)
Definition alpha_to_hex (a : pyval) : res str :=
  f <- py_float a ;;
  n <- trunc (Float.mul (of_Z 255) f) ;;
  Ok (format_02x n).

(** [hexa_to_hex], lines 29 to 30. *)
Definition hexa_to_hex (hex : str) (a : pyval) : res str :=
  h <- alpha_to_hex a ;;
  Ok (slice_to 7 hex ++ h).

(** [rgb_to_hex], lines 32 to 36. *)
Definition rgb_to_hex (r g b : Z) (a : pyval) : res str :=
  let hexcode := "#"%char :: format_02x r ++ format_02x g ++ format_02x b in
  if truthy a
  then h <- alpha_to_hex a ;; Ok (hexcode ++ h)
  else Ok hexcode.

(** [get_alpha_adjuster], lines 38 to 43. *)
Definition get_alpha_adjuster (string : str) (default : pyval) : res pyval :=
  match search re_alpha string with
  | Some alpha => f <- float_of_str (group_str alpha 1) ;; Ok (PyFloat f)
  | None => Ok default
  end.

(** [get_alpha_hex], lines 45 to 49. *)
Definition get_alpha_hex (hexcode : str) : res pyval :=
  if (List.length hexcode <? 8)%nat then Ok PyNone
  else z <- py_int16 (slice_from 7 hexcode) ;; Ok (PyInt z).

(** [match_hex], lines 51 to 61. *)
Definition match_hex (string : str) : res (option str) :=
  match search re_hex string with
  | Some m =>
      let result := group_str m 1 in
      alpha <- get_alpha_adjuster string PyNone ;;
      if truthy alpha
      then h <- alpha_to_hex alpha ;; Ok (Some (result ++ h))
      else if truthy (group_val m 2)
      then Ok (Some (result ++ group_str m 2))
      else Ok (Some result)
  | None => Ok None
  end.

(** [match_rgb], lines 63 to 72. *)
Definition match_rgb (string : str) : res (option str) :=
  match search re_rgb string with
  | Some m =>
      r <- py_int (group_str m 1) ;;
      g <- py_int (group_str m 2) ;;
      b <- py_int (group_str m 3) ;;
      a <- get_alpha_adjuster string (group_val m 5) ;;
      result <- rgb_to_hex r g b a ;;
      Ok (Some result)
  | None => Ok None
  end.

(** [match_hsl], lines 74 to 84. *)
Definition match_hsl (string : str) : res (option str) :=
  match search re_hsl string with
  | Some m =>
      h <- (n <- py_int (group_str m 1) ;; truediv n 360) ;;
      s <- (n <- py_int (group_str m 2) ;; truediv n 100) ;;
      l <- (n <- py_int (group_str m 3) ;; truediv n 100) ;;
      a <- get_alpha_adjuster string (group_val m 5) ;;
      let '(vr, vg, vb) := Colorsys.hls_to_rgb h l s in
      r <- (n <- trunc vr ;; Ok (255 * n)) ;;
      g <- (n <- trunc vg ;; Ok (255 * n)) ;;
      b <- (n <- trunc vb ;; Ok (255 * n)) ;;
      result <- rgb_to_hex r g b a ;;
      Ok (Some result)
  | None => Ok None
  end.

(** [not hexcode] for a value that is [None] or a string. *)
Definition is_falsy (hexcode : option str) : bool :=
  match hexcode with
  | Some (_ :: _) => false
  | _ => true
  end.

(** [try_match_color], lines 86 to 98. *)
Definition try_match_color (string : str) : res str :=
  hexcode <- match_hex string ;;
  hexcode <- (if is_falsy hexcode then match_rgb string else Ok hexcode) ;;
  hexcode <- (if is_falsy hexcode then match_hsl string else Ok hexcode) ;;
  match hexcode with
  | Some ((_ :: _) as hexcode) =>
      d <- get_alpha_hex hexcode ;;
      alpha <- get_alpha_adjuster string d ;;
      if truthy alpha then hexa_to_hex (slice_to 7 hexcode) alpha
      else Ok hexcode
  | _ => Ok string
  end.

(** [str.upper] on the characters the pattern of [convert_name] captures. *)
Definition upper_char (c : ascii) : ascii :=
  if lower c then ascii_of_nat (nat_of_ascii c - 32) else c.

(** [_ ( [a-z,A-Z,0-9] )] *)
Definition re_name : regex := Cat (Chr "_") (Group 1 (Class alnum_comma)).

(** [lambda match: match.group(1).upper()] *)
Definition upper_group (g : caps) : str :=
  match lookup 1 g with
  | Some t => map upper_char t
  | None => []
  end.

(** [convert_name], lines 100 to 105. *)
Definition convert_name (string : str) : str :=
  Re.sub re_name upper_group string.

(** [parse_color], lines 107 to 116.  [variables] is [None] when the
    document declares no variables. *)
Definition parse_color (key : str) (variables : option (dict str))
    : res str :=
  let declared :=
    match variables with
    | Some ((_ :: _) as d) => dict_get key d
    | _ => None
    end in
  match declared with
  | Some v => try_match_color v
  | None =>
      match search re_var key with
      | Some var =>
          match variables with
          | Some d =>
              let color :=
                match dict_get (m_text var) d with
                | Some v => v
                | None => m_text var
                end in
              try_match_color (str_replace key (m_text var) color)
          | None => Raise AttributeError
          end
      | None => try_match_color key
      end
  end.

(** [parse_settings], lines 118 to 123. *)
Fixpoint parse_settings_loop (items : dict str) (variables : option (dict str))
    (parsed : dict str) : res (dict str) :=
  match items with
  | [] => Ok parsed
  | (key, value) :: items' =>
      c <- parse_color value variables ;;
      parse_settings_loop items' variables
        (dict_set (convert_name key) c parsed)
  end.

Definition parse_settings (settings : dict str)
    (variables : option (dict str)) : res (dict str) :=
  parse_settings_loop settings variables [].

(** [\s ( - | \| ) \s] *)
Definition re_sep : regex :=
  Cat (Class space) (Cat (Group 1 (Alt (Chr "-") (Chr "|"))) (Class space)).

(** [\s* ( \( | \) ) \s*] *)
Definition re_paren : regex :=
  Cat (Star (Class space))
      (Cat (Group 1 (Alt (Chr "(") (Chr ")"))) (Star (Class space))).

(** [parse_scope], lines 125 to 129. *)
Definition parse_scope (scope : str) : str :=
  let parsed := convert_name scope in
  let parsed := Re.sub re_sep (fun _ => ", ") parsed in
  let parsed := Re.sub re_paren (fun _ => " ") parsed in
  parsed.

(** A rule of the theme: the keys [name] and [scope] are set only when the
    source rule has a non-empty one. *)
Record rule : Type := {
  rule_name : option str;
  rule_scope : option str;
  rule_settings : dict str
}.

Definition nonempty (o : option str) : option str :=
  match o with
  | Some (_ :: _) => o
  | _ => None
  end.

(** [parse_rules], lines 131 to 143. *)
Fixpoint parse_rules (rules : list (dict str)) (variables : option (dict str))
    : res (list rule) :=
  match rules with
  | [] => Ok []
  | settings :: rules' =>
      let '(name, settings) := dict_pop "name" settings in
      let '(scope, settings) := dict_pop "scope" settings in
      parsed <- parse_settings settings variables ;;
      rest <- parse_rules rules' variables ;;
      Ok ({| rule_name := nonempty name;
             rule_scope := option_map parse_scope (nonempty scope);
             rule_settings := parsed |} :: rest)
  end.

(** The source document, after [json.load]: an object whose fields, when
    present, have the shapes the program expects. *)
Record source : Type := {
  src_name : option str;
  src_author : option str;
  src_variables : option (dict str);
  src_globals : option (dict str);
  src_rules : option (list (dict str))
}.

Record theme : Type := {
  theme_name : str;
  theme_author : str;
  theme_settings : list rule
}.

(** [source[k]] *)
Definition required {A : Type} (k : str) (field : option A) : res A :=
  match field with
  | Some a => Ok a
  | None => Raise (KeyError k)
  end.

(** The loop of lines 152 to 154: each declared name, in the order of the
    keys at the start of the loop, is removed and stored again under
    [var(name)]. *)
Fixpoint wrap_variables (keys : list str) (variables : dict str)
    : res (dict str) :=
  match keys with
  | [] => Ok variables
  | key :: keys' =>
      match dict_pop key variables with
      | (Some v, variables') =>
          wrap_variables keys' (dict_set ("var(" ++ key ++ ")") v variables')
      | (None, _) => Raise (KeyError key)
      end
  end.

(** [parse], lines 145 to 162. *)
Definition parse (src : source) : res theme :=
  let name := match src_name src with Some n => n | None => "undefined" end in
  let author :=
    match src_author src with Some n => n | None => "undefined" end in
  let variables := src_variables src in
  globals_ <- required "globals" (src_globals src) ;;
  rules <- required "rules" (src_rules src) ;;
  variables <-
    match variables with
    | Some ((_ :: _) as d) =>
        d' <- wrap_variables (dict_keys d) d ;; Ok (Some d')
    | _ => Ok variables
    end ;;
  settings <- parse_settings globals_ variables ;;
  rules <- parse_rules rules variables ;;
  Ok {| theme_name := name;
        theme_author := author;
        theme_settings :=
          {| rule_name := None; rule_scope := None;
             rule_settings := settings |} :: rules |}.

(** * Definitions on the side of the specification *)

(** A canonical colour literal: a [#], six hexadecimal digits, and then
    nothing or two more hexadecimal digits. *)
Definition is_hex_digit (c : ascii) : bool :=
  match hex_val c with Some _ => true | None => false end.

Definition canonical (s : str) : bool :=
  match s with
  | c :: t =>
      Ascii.eqb c "#" && forallb is_hex_digit t
      && ((List.length t =? 6)%nat || (List.length t =? 8)%nat)
  | [] => false
  end.

(** The largest integer that is at most [k] times the value [m * 2 ^ e]
    of a finite float: the floor of the exact product, in integer
    arithmetic, with no rounding. *)
Definition floor_scaled (k : Z) (a : float) : option Z :=
  match a with
  | S754_zero _ => Some 0
  | S754_finite s m e =>
      Some (if 0 <=? e then k * cond_Zopp s (Zpos m) * 2 ^ e
            else (k * cond_Zopp s (Zpos m)) / 2 ^ (- e))
  | _ => None
  end.

(** [b] is the floor of the exact product [255 * a]; or it is the next
    integer and the exact product is within [2 ^ -46] of that integer: the
    first 46 binary digits of the product after the point are all ones. *)
Definition alpha_byte (a : float) (b : Z) : bool :=
  match floor_scaled 255 a, floor_scaled (255 * 2 ^ 46) a with
  | Some E, Some F =>
      (b =? E) || ((b =? E + 1) && (F =? (E + 1) * 2 ^ 46 - 1))
  | _, _ => false
  end.

(** The lower-case hexadecimal digit of a number below 16. *)
Definition hex_digit (d : Z) : ascii :=
  nth (Z.to_nat d) ("0123456789abcdef" : str) "0"%char.

(** A scan from left to right: where [here] finds an occurrence, of the
    length and with the replacement it returns, the occurrence is replaced;
    any other character is copied.  [skip] counts the characters of the
    occurrence still to be passed over. *)
Fixpoint rewrite_scan (here : str -> option (nat * str)) (s : str)
    (skip : nat) : str :=
  match s with
  | [] => []
  | c :: t =>
      match skip with
      | S k => rewrite_scan here t k
      | O =>
          match here s with
          | Some (S k, new) => new ++ rewrite_scan here t k
          | _ => c :: rewrite_scan here t O
          end
      end
  end.

Definition is_char (x c : ascii) : bool := Ascii.eqb c x.

(** The letters and digits of the key normalizer, without the comma. *)
Definition alnum (c : ascii) : bool := digit c || lower c || upper c.

(** An underscore and a character of the class [follows] after it: both are
    replaced by the character in upper case. *)
Definition name_here (follows : ascii -> bool) (s : str)
    : option (nat * str) :=
  match s with
  | a :: c :: _ =>
      if is_char "_" a && follows c then Some (2%nat, [upper_char c])
      else None
  | _ => None
  end.

(** A [-] or a [|] with one whitespace character on each side: the three
    are replaced by a comma and a space. *)
Definition sep_here (s : str) : option (nat * str) :=
  match s with
  | a :: b :: c :: _ =>
      if space a && (is_char "-" b || is_char "|" b) && space c
      then Some (3%nat, ", " : str) else None
  | _ => None
  end.

Fixpoint drop_spaces (s : str) : str :=
  match s with
  | c :: t => if space c then drop_spaces t else s
  | [] => []
  end.

(** A parenthesis with all the whitespace before and after it: the whole
    is replaced by one space. *)
Definition paren_here (s : str) : option (nat * str) :=
  match drop_spaces s with
  | p :: r =>
      if is_char "(" p || is_char ")" p
      then Some ((List.length s - List.length (drop_spaces r))%nat, " " : str)
      else None
  | [] => None
  end.

(** What a shift record knows about the number [M] it was shifted from by
    [n] places: its mantissa is the quotient, and its two bits tell whether
    anything was lost. *)
Definition shr_inv (M n : Z) (r : shr_record) : Prop :=
  0 <= shr_m r
  /\ shr_m r * 2 ^ n <= M < (shr_m r + 1) * 2 ^ n
  /\ (loc_of_shr_record r = loc_Exact -> M = shr_m r * 2 ^ n)
  /\ (loc_of_shr_record r <> loc_Exact -> shr_m r * 2 ^ n < M).

(** All the characters. *)
Definition all_ascii : list ascii := map ascii_of_nat (seq 0 256).

(** What the last lines of [try_match_color] make of a suffix of two
    hexadecimal digits: they leave it when the byte is zero, and render the
    byte as an alpha otherwise. *)
Definition rescaled (c7 c8 : ascii) : res str :=
  d <- get_alpha_hex ("#000000" ++ [c7; c8]) ;;
  if truthy d then alpha_to_hex d else Ok [c7; c8].

Definition suffix_kept (c7 c8 : ascii) : bool :=
  match rescaled c7 c8 with
  | Ok t => str_eqb t [c7; c8]
  | Raise _ => false
  end.

Definition zero_byte (c7 c8 : ascii) : bool :=
  is_char "0" c7 && is_char "0" c8.

(** The quotient [n / d] of two integers as the processor computes it, and
    its product with 255. *)
Definition machine_ratio (n d : PrimInt63.int) : float :=
  FloatOps.Prim2SF
    (PrimFloat.div (PrimFloat.of_uint63 n) (PrimFloat.of_uint63 d)).

Definition machine_scaled (n d : PrimInt63.int) : float :=
  FloatOps.Prim2SF
    (PrimFloat.mul (PrimFloat.of_uint63 255)
       (PrimFloat.div (PrimFloat.of_uint63 n) (PrimFloat.of_uint63 d))).

(** Documents and tables of the examples. *)

Definition accent_table : dict str :=
  [("var(accent)" : str, "#112233" : str)].

(** A document without the field [variables], one of whose values names a
    variable. *)
Definition doc_without_variables : source :=
  {| src_name := None; src_author := None; src_variables := None;
     src_globals := Some [("background" : str, "var(missing)" : str)];
     src_rules := Some [] |}.

Definition doc_without_rules : source :=
  {| src_name := Some ("T" : str); src_author := None;
     src_variables := Some [("accent" : str, "#112233" : str)];
     src_globals := Some [("background" : str, "var(accent)" : str)];
     src_rules := None |}.

(** The document and the theme of the end-to-end example. *)
Definition doc_example : source :=
  {| src_name := Some ("T" : str); src_author := Some ("A" : str);
     src_variables := None;
     src_globals := Some [("background" : str, "#ffffff" : str)];
     src_rules :=
       Some [[("name" : str, "Comment" : str);
              ("scope" : str, "comment" : str);
              ("foreground" : str, "#888888" : str)]] |}.

Definition theme_example : theme :=
  {| theme_name := "T"; theme_author := "A";
     theme_settings :=
       [{| rule_name := None; rule_scope := None;
           rule_settings := [("background" : str, "#ffffff" : str)] |};
        {| rule_name := Some ("Comment" : str);
           rule_scope := Some ("comment" : str);
           rule_settings := [("foreground" : str, "#888888" : str)] |}] |}.

(** ** Texts and tables the further properties speak of *)

(** The text without the longest run of characters of the class at its
    start. *)
Fixpoint drop_class (p : ascii -> bool) (s : str) : str :=
  match s with
  | c :: t => if p c then drop_class p t else s
  | [] => []
  end.

(** The character [x] occurs in the text. *)
Definition has_char (x : ascii) (s : str) : bool := existsb (is_char x) s.

(** The two lower-case hexadecimal digits of a byte. *)
Definition hex2 (n : Z) : str := [hex_digit (n / 16); hex_digit (n mod 16)].

(** Nothing, or one whitespace character: what [\s?] takes. *)
Definition opt_space (w : str) : bool :=
  match w with
  | [] => true
  | [c] => space c
  | _ => false
  end.

(** The text [rgb(d1,w1 d2,w2 d3)]: three numbers, and nothing or one
    whitespace character after each comma. *)
Definition rgb_text (d1 w1 d2 w2 d3 : str) : str :=
  "rgb(" ++ d1 ++ "," ++ w1 ++ d2 ++ "," ++ w2 ++ d3 ++ ")".

(** The text [hsl(d1,w1 d2%,w2 d3%)]. *)
Definition hsl_text (d1 w1 d2 w2 d3 : str) : str :=
  "hsl(" ++ d1 ++ "," ++ w1 ++ d2 ++ "%," ++ w2 ++ d3 ++ "%)".

(** The text starts with two characters of the class. *)
Definition two_of (p : ascii -> bool) (s : str) : bool :=
  match s with
  | a :: b :: _ => p a && p b
  | _ => false
  end.

(** A character that takes no part in the rewriting of scopes: no
    whitespace, no underscore, no parenthesis. *)
Definition plain (c : ascii) : bool :=
  negb (space c || is_char "_" c || is_char "(" c || is_char ")" c).

Definition is_paren (c : ascii) : bool := is_char "(" c || is_char ")" c.

Definition is_sep (c : ascii) : bool := is_char "-" c || is_char "|" c.

(** The text of a reference to the variable [name]. *)
Definition reference (name : str) : str := "var(" ++ name ++ ")".

(** The table of variables as [parse] hands it to the resolution of the
    settings: each name stored as the text of its reference. *)
Definition wrapped (d : dict str) : dict str :=
  map (fun kv => (reference (fst kv), snd kv)) d.

(** No string occurs twice. *)
Fixpoint distinct (l : list str) : bool :=
  match l with
  | [] => true
  | k :: t => negb (existsb (str_eqb k) t) && distinct t
  end.

(** No key is the reference text of a key. *)
Definition no_reference_key (keys : list str) : bool :=
  forallb (fun k => negb (existsb (str_eqb (reference k)) keys)) keys.

(** The values of a dictionary of settings resolved one after the other;
    the first that raises ends the resolution. *)
Fixpoint resolve_all (values : list str) (variables : option (dict str))
    : res (list str) :=
  match values with
  | [] => Ok []
  | v :: values' =>
      c <- parse_color v variables ;;
      cs <- resolve_all values' variables ;;
      Ok (c :: cs)
  end.

(** [source.get(field, default)] with the default of [parse]. *)
Definition or_undefined (field : option str) : str :=
  match field with
  | Some n => n
  | None => "undefined"
  end.

(** * Properties *)

(** ** The equations of the matcher *)

Section Equations.

Context {A : Type}.
Variable k : str -> caps -> option A.

Lemma rmatch_cat (r1 r2 : regex) (s : str) (g : caps) :
  rmatch (Cat r1 r2) s g k = rmatch r1 s g (fun s' g' => rmatch r2 s' g' k).
Proof. reflexivity. Qed.

Lemma rmatch_alt (r1 r2 : regex) (s : str) (g : caps) :
  rmatch (Alt r1 r2) s g k
  = match rmatch r1 s g k with
    | Some a => Some a
    | None => rmatch r2 s g k
    end.
Proof. reflexivity. Qed.

Lemma rmatch_chr (c x : ascii) (s : str) (g : caps) :
  rmatch (Chr c) (x :: s) g k = if Ascii.eqb x c then k s g else None.
Proof. reflexivity. Qed.

Lemma rmatch_class (p : ascii -> bool) (s : str) (g : caps) :
  rmatch (Class p) s g k
  = match s with
    | [] => None
    | x :: s' => if p x then k s' g else None
    end.
Proof. reflexivity. Qed.

Lemma rmatch_star (r1 : regex) (s : str) (g : caps) :
  rmatch (Star r1) s g k = star_loop (rmatch r1) k (List.length s) s g.
Proof. reflexivity. Qed.

Lemma rmatch_group (i : nat) (r1 : regex) (s : str) (g : caps) :
  rmatch (Group i r1) s g k
  = rmatch r1 s g
      (fun s' g' =>
         k s' ((i, firstn (List.length s - List.length s') s) :: g')).
Proof. reflexivity. Qed.

End Equations.

(** ** Substitution as a scan *)

Section Scan.

Variable r : regex.
Variable repl : caps -> str.
Variable here : str -> option (nat * str).

(** [here] describes the matches of [r]: where they are, how long they
    are, and what replaces them; no match of [r] is empty. *)
Hypothesis here_spec : forall s,
  match match_at r s with
  | Some (s', g) =>
      here s = Some ((List.length s - List.length s')%nat, repl g)
      /\ (List.length s' < List.length s)%nat
  | None => here s = None
  end.

Lemma sub_scan_rewrite (s : str) :
  forall skip, sub_scan r repl s skip = rewrite_scan here s skip.
Proof.
  induction s as [| c t IH]; intros skip.
  - cbn [sub_scan rewrite_scan]. destruct skip; [|reflexivity].
    pose proof (here_spec []) as H.
    destruct (match_at r []) as [[s' g]|]; [|reflexivity].
    destruct H as [_ H]. cbn in H. lia.
  - cbn [sub_scan rewrite_scan]. destruct skip as [| k]; [|apply IH].
    pose proof (here_spec (c :: t)) as H.
    destruct (match_at r (c :: t)) as [[s' g]|].
    + destruct H as [-> Hlt].
      destruct (List.length (c :: t) - List.length s')%nat as [| k] eqn:Hk;
        [lia|].
      rewrite IH. reflexivity.
    + rewrite H, IH. reflexivity.
Qed.

End Scan.

Lemma succ_sub (n : nat) : (S n - n = 1)%nat.
Proof. lia. Qed.

Lemma succ2_sub (n : nat) : (S (S n) - n = 2)%nat.
Proof. lia. Qed.

Lemma succ3_sub (n : nat) : (S (S (S n)) - n = 3)%nat.
Proof. lia. Qed.

Lemma name_here_spec (s : str) :
  match match_at re_name s with
  | Some (s', g) =>
      name_here alnum_comma s
      = Some ((List.length s - List.length s')%nat, upper_group g)
      /\ (List.length s' < List.length s)%nat
  | None => name_here alnum_comma s = None
  end.
Proof.
  unfold match_at, re_name, name_here, is_char.
  destruct s as [| a [| c t]]; cbn [rmatch].
  - reflexivity.
  - destruct (Ascii.eqb a "_"); reflexivity.
  - destruct (Ascii.eqb a "_"); cbn [andb]; [|reflexivity].
    destruct (alnum_comma c); [|reflexivity].
    cbn [List.length]. rewrite succ_sub, succ2_sub. cbn.
    split; [reflexivity | lia].
Qed.

(** For every key, [convert_name] is the scan that replaces an underscore
    and the character of [[0-9,a-z,A-Z]] after it. *)
Lemma convert_name_scan (s : str) :
  convert_name s = rewrite_scan (name_here alnum_comma) s O.
Proof.
  unfold convert_name, Re.sub.
  apply (sub_scan_rewrite re_name upper_group (name_here alnum_comma)
           name_here_spec).
Qed.

Lemma rewrite_scan_ext (here1 here2 : str -> option (nat * str)) (s : str) :
  (forall u t, s = u ++ t -> here1 t = here2 t) ->
  forall skip, rewrite_scan here1 s skip = rewrite_scan here2 s skip.
Proof.
  induction s as [| c t IH]; intros H skip; [reflexivity|].
  assert (Ht : forall skip', rewrite_scan here1 t skip'
                             = rewrite_scan here2 t skip').
  { apply IH. intros u v ->. apply (H (c :: u)). reflexivity. }
  cbn [rewrite_scan]. destruct skip as [| k]; [|apply Ht].
  rewrite (H [] (c :: t) eq_refl).
  destruct (here2 (c :: t)) as [[[| k] new]|]; rewrite Ht; reflexivity.
Qed.

Lemma alnum_comma_cases (c : ascii) :
  alnum_comma c = alnum c || is_char "," c.
Proof.
  unfold alnum_comma, alnum, is_char.
  replace (code c =? 44) with (Ascii.eqb c ",").
  - destruct (digit c), (lower c), (upper c), (Ascii.eqb c ","); reflexivity.
  - destruct c as [[] [] [] [] [] [] [] []]; reflexivity.
Qed.

(** On a key without a comma the program does what the key normalizer is
    said to do: it replaces an underscore and the letter or digit after
    it, and nothing else. *)
Lemma convert_name_without_comma (s : str) :
  forallb (fun c => negb (is_char "," c)) s = true ->
  convert_name s = rewrite_scan (name_here alnum) s O.
Proof.
  intros H. rewrite convert_name_scan. apply rewrite_scan_ext.
  intros u t ->. rewrite forallb_app in H. apply andb_prop in H as [_ H].
  destruct t as [| a [| c t]]; try reflexivity.
  cbn [forallb] in H. apply andb_prop in H as [_ H].
  apply andb_prop in H as [H _]. unfold name_here.
  rewrite alnum_comma_cases. destruct (is_char "," c); [discriminate|].
  rewrite orb_false_r. reflexivity.
Qed.

Lemma sep_here_spec (s : str) :
  match match_at re_sep s with
  | Some (s', g) =>
      sep_here s = Some ((List.length s - List.length s')%nat, ", " : str)
      /\ (List.length s' < List.length s)%nat
  | None => sep_here s = None
  end.
Proof.
  unfold match_at, re_sep, sep_here, is_char.
  destruct s as [| a [| b [| c t]]]; cbn [rmatch].
  - reflexivity.
  - destruct (space a); reflexivity.
  - destruct (space a); [|reflexivity].
    destruct (Ascii.eqb b "-"), (Ascii.eqb b "|"); reflexivity.
  - destruct (space a); cbn [andb]; [|reflexivity].
    destruct (Ascii.eqb b "-"); cbn [orb andb].
    + destruct (space c); [|destruct (Ascii.eqb b "|"); reflexivity].
      cbn [List.length]. rewrite succ3_sub. split; [reflexivity | lia].
    + destruct (Ascii.eqb b "|"); cbn [andb]; [|reflexivity].
      destruct (space c); [|reflexivity].
      cbn [List.length]. rewrite succ3_sub. split; [reflexivity | lia].
Qed.

Lemma drop_spaces_length (s : str) :
  (List.length (drop_spaces s) <= List.length s)%nat.
Proof.
  induction s as [| c t IH]; cbn [drop_spaces]; [lia|].
  destruct (space c); cbn [List.length] in *; lia.
Qed.

Section StarSpace.

Context {A : Type}.
Variable step : str -> caps -> (str -> caps -> option A) -> option A.
Variable k : str -> caps -> option A.

Hypothesis step_space : forall s g k0,
  step s g k0
  = match s with
    | [] => None
    | x :: s' => if space x then k0 s' g else None
    end.

(** The greedy [\s*] hands the text after the whole run of whitespace to
    the rest of the pattern first. *)
Lemma star_space_greedy (s : str) :
  forall (n : nat) (g : caps) (a : A),
    (List.length s <= n)%nat ->
    k (drop_spaces s) g = Some a ->
    star_loop step k n s g = Some a.
Proof.
  induction s as [| c t IH]; intros n g a Hn Hk.
  - destruct n; cbn [star_loop]; [exact Hk|]. rewrite step_space. exact Hk.
  - destruct n as [| n]; [cbn in Hn; lia|].
    cbn [star_loop]. rewrite step_space. cbn [drop_spaces] in Hk.
    destruct (space c); [|exact Hk].
    replace (List.length t <? List.length (c :: t))%nat with true
      by (symmetry; apply Nat.ltb_lt; cbn; lia).
    rewrite (IH n g a); [reflexivity | cbn in Hn; lia | exact Hk].
Qed.

(** When the rest of the pattern cannot start with whitespace, giving
    whitespace back does not help. *)
Lemma star_space_none (s : str) :
  forall (n : nat) (g : caps),
    (List.length s <= n)%nat ->
    (forall c t g', space c = true -> k (c :: t) g' = None) ->
    k (drop_spaces s) g = None ->
    star_loop step k n s g = None.
Proof.
  induction s as [| c t IH]; intros n g Hn Hsp Hk.
  - destruct n; cbn [star_loop]; [exact Hk|]. rewrite step_space. exact Hk.
  - destruct n as [| n]; [cbn in Hn; lia|].
    cbn [star_loop]. rewrite step_space. cbn [drop_spaces] in Hk.
    destruct (space c) eqn:Hc; [|exact Hk].
    replace (List.length t <? List.length (c :: t))%nat with true
      by (symmetry; apply Nat.ltb_lt; cbn; lia).
    rewrite (IH n g); [apply Hsp; exact Hc | cbn in Hn; lia | exact Hsp
                      | exact Hk].
Qed.

End StarSpace.

Lemma space_not_paren (c : ascii) :
  space c = true -> Ascii.eqb c "(" = false /\ Ascii.eqb c ")" = false.
Proof.
  destruct c as [[] [] [] [] [] [] [] []]; vm_compute; intros H;
    try discriminate; split; reflexivity.
Qed.

Lemma paren_here_spec (s : str) :
  match match_at re_paren s with
  | Some (s', g) =>
      paren_here s = Some ((List.length s - List.length s')%nat, " " : str)
      /\ (List.length s' < List.length s)%nat
  | None => paren_here s = None
  end.
Proof.
  unfold match_at, re_paren, paren_here, is_char.
  set (k2 := fun (s' : str) (g : caps) => Some (s', g)).
  rewrite rmatch_cat, rmatch_star.
  set (k1 := fun (s' : str) (g' : caps) =>
    rmatch (Cat (Group 1 (Alt (Chr "(") (Chr ")"))) (Star (Class space)))
      s' g' k2).
  pose (Hstep := fun (A : Type) (s0 : str) (g0 : caps)
                     (k0 : str -> caps -> option A) =>
                   rmatch_class k0 space s0 g0).
  assert (Hk1 : forall p t g,
    k1 (p :: t) g =
    if Ascii.eqb p "(" || Ascii.eqb p ")"
    then Some (drop_spaces t, (1%nat, [p]) :: g) else None).
  { intros p t g. unfold k1.
    rewrite rmatch_cat, rmatch_group, rmatch_alt, !rmatch_chr.
    cbv beta. rewrite rmatch_star. cbn [List.length]. rewrite succ_sub.
    cbn [firstn].
    rewrite (star_space_greedy _ k2 (Hstep _) t (List.length t) _
               (drop_spaces t, (1%nat, [p]) :: g))
      by (try reflexivity; lia).
    destruct (Ascii.eqb p "("); [reflexivity|].
    destruct (Ascii.eqb p ")"); reflexivity. }
  assert (Hsp : forall c t g', space c = true -> k1 (c :: t) g' = None).
  { intros c t g' Hc. rewrite Hk1.
    destruct (space_not_paren c Hc) as [-> ->]. reflexivity. }
  pose proof (drop_spaces_length s) as Hl.
  destruct (drop_spaces s) as [| p t] eqn:Hd.
  - rewrite (star_space_none _ k1 (Hstep _) s (List.length s) []);
      try reflexivity; try assumption; try lia. rewrite Hd. reflexivity.
  - destruct (Ascii.eqb p "(" || Ascii.eqb p ")") eqn:Hp.
    + rewrite (star_space_greedy _ k1 (Hstep _) s (List.length s) []
                 (drop_spaces t, [(1%nat, [p])])).
      * split; [reflexivity|].
        pose proof (drop_spaces_length t). cbn [List.length] in Hl. lia.
      * lia.
      * rewrite Hd, Hk1, Hp. reflexivity.
    + rewrite (star_space_none _ k1 (Hstep _) s (List.length s) []);
        try reflexivity; try assumption; try lia.
      rewrite Hd, Hk1, Hp. reflexivity.
Qed.

(** ** Scope and key normalization *)

(** C6, as the claim states it, fails.  In [foo (bar)] the closing
    parenthesis is replaced by a space as well, so the result ends with a
    space.  And the separators are found from left to right without
    overlap: in [a - | b] the [|] has a whitespace character on each side,
    but the one before it belongs to the separator [-], and the [|]
    stays. *)
Lemma parse_scope_keeps_trailing_space :
  parse_scope "foo (bar)" <> ("foo bar" : str)
  /\ parse_scope "a - | b" = ("a, | b" : str).
Proof. split; vm_compute; [discriminate | reflexivity]. Qed.

(** C6, amended.  For every scope, [parse_scope] takes the scope as the key
    normalizer returns it; scans it from left to right and replaces each
    [-] or [|] that has a whitespace character on each side, none of them
    part of the separator replaced before, by a comma and a space; then
    scans the result and replaces each parenthesis, with all the whitespace
    around it, by one space, also at the start and at the end.  In
    particular [string - comment] becomes [string, comment] and [foo (bar)]
    becomes [foo bar] followed by a space. *)
Theorem parse_scope_normalizes :
  (forall s : str,
     parse_scope s
     = rewrite_scan paren_here
         (rewrite_scan sep_here (convert_name s) O) O)
  /\ parse_scope "string - comment" = ("string, comment" : str)
  /\ parse_scope "foo (bar)" = ("foo bar " : str).
Proof.
  split; [|split; vm_compute; reflexivity].
  intros s. unfold parse_scope, Re.sub.
  rewrite (sub_scan_rewrite re_sep (fun _ => ", " : str) sep_here
             sep_here_spec).
  rewrite (sub_scan_rewrite re_paren (fun _ => " " : str) paren_here
             paren_here_spec).
  reflexivity.
Qed.

(** C7. [background_color] becomes [backgroundColor].  But the class of
    the pattern, [[a-z,A-Z,0-9]], has the comma as a member: in [a_,b] the
    underscore is followed by a comma, which is not alphanumeric, and the
    program removes the underscore all the same, where the key normalizer as
    described leaves the key as it is. *)
Theorem convert_name_removes_underscore_before_comma :
  convert_name "background_color" = ("backgroundColor" : str)
  /\ convert_name "a_,b" = ("a,b" : str)
  /\ rewrite_scan (name_here alnum) "a_,b" O = ("a_,b" : str).
Proof. repeat split; vm_compute; reflexivity. Qed.

(** ** The product by 255, rounded and cut, against the exact product *)

Lemma digits2_pos_bounds (p : positive) :
  2 ^ (Zpos (digits2_pos p) - 1) <= Zpos p < 2 ^ Zpos (digits2_pos p).
Proof.
  induction p as [p IH | p IH |]; cbn [digits2_pos].
  - rewrite Pos2Z.inj_succ.
    replace (Z.succ (Zpos (digits2_pos p)) - 1)
      with (Z.succ (Zpos (digits2_pos p) - 1)) by lia.
    rewrite !Z.pow_succ_r by lia. lia.
  - rewrite Pos2Z.inj_succ.
    replace (Z.succ (Zpos (digits2_pos p)) - 1)
      with (Z.succ (Zpos (digits2_pos p) - 1)) by lia.
    rewrite !Z.pow_succ_r by lia. lia.
  - cbn. lia.
Qed.

Lemma shr_inv_init (M : Z) :
  0 <= M -> shr_inv M 0 (shr_record_of_loc M loc_Exact).
Proof.
  intros HM. unfold shr_inv. cbn. repeat split; try lia.
  intros H. contradiction H. reflexivity.
Qed.

Lemma shr_1_inv (M n : Z) (r : shr_record) :
  0 <= n -> shr_inv M n r -> shr_inv M (n + 1) (shr_1 r).
Proof.
  intros Hn (Hm & Hb & Hex & Hin).
  assert (Hp : 0 < 2 ^ n) by (apply Z.pow_pos_nonneg; lia).
  replace (n + 1) with (Z.succ n) by lia.
  unfold shr_inv. rewrite Z.pow_succ_r by lia.
  destruct r as [m rb sb]. cbn [shr_m] in *.
  destruct m as [| [p | p |] | p]; try lia; cbn [shr_1 shr_m];
    destruct rb, sb; cbn [orb loc_of_shr_record] in *;
    repeat split; try lia; try discriminate; intros Hx;
    try (exfalso; apply Hx; reflexivity); clear Hx;
    try (assert (Hlt : Zpos p~0 * 2 ^ n < M) by (apply Hin; discriminate));
    try (assert (Hlt : 0 * 2 ^ n < M) by (apply Hin; discriminate));
    try (assert (Heq : M = Zpos p~0 * 2 ^ n) by (apply Hex; reflexivity));
    try (assert (Heq : M = 0 * 2 ^ n) by (apply Hex; reflexivity));
    try lia.
Qed.

Lemma iter_shr_1_inv (p : positive) :
  forall (M n : Z) (r : shr_record),
    0 <= n -> shr_inv M n r -> shr_inv M (n + Zpos p) (iter_pos shr_1 p r).
Proof.
  induction p as [p IH | p IH |]; intros M n r Hn H; cbn [iter_pos].
  - replace (n + Zpos p~1) with (n + 1 + Zpos p + Zpos p) by lia.
    apply IH; [lia|]. apply IH; [lia|]. apply shr_1_inv; assumption.
  - replace (n + Zpos p~0) with (n + Zpos p + Zpos p) by lia.
    apply IH; [lia|]. apply IH; assumption.
  - apply shr_1_inv; assumption.
Qed.

Lemma shr_1_round_bit (M n : Z) (r : shr_record) :
  0 <= n -> shr_inv M n r -> shr_r (shr_1 r) = true ->
  2 ^ (n + 1) <= 2 * (M - shr_m (shr_1 r) * 2 ^ (n + 1)).
Proof.
  intros Hn (Hm & Hb & _ & _).
  assert (Hp : 0 < 2 ^ n) by (apply Z.pow_pos_nonneg; lia).
  replace (n + 1) with (Z.succ n) by lia. rewrite Z.pow_succ_r by lia.
  destruct r as [m rb sb]. cbn [shr_m] in *.
  destruct m as [| [p | p |] | p]; try lia; cbn [shr_1 shr_m shr_r];
    intros Hr; try discriminate; lia.
Qed.

Lemma iter_shr_1_round_bit (p : positive) :
  forall (M n : Z) (r : shr_record),
    0 <= n -> shr_inv M n r ->
    shr_r (iter_pos shr_1 p r) = true ->
    2 ^ (n + Zpos p)
    <= 2 * (M - shr_m (iter_pos shr_1 p r) * 2 ^ (n + Zpos p)).
Proof.
  induction p as [p IH | p IH |]; intros M n r Hn H; cbn [iter_pos].
  - replace (n + Zpos p~1) with (n + 1 + Zpos p + Zpos p) by lia.
    apply IH; [lia|]. apply iter_shr_1_inv; [lia|].
    apply shr_1_inv; assumption.
  - replace (n + Zpos p~0) with (n + Zpos p + Zpos p) by lia.
    apply IH; [lia|]. apply iter_shr_1_inv; assumption.
  - apply shr_1_round_bit; assumption.
Qed.

(** What one normalisation step does to an exact mantissa: it shifts by
    some [n] places, keeps the quotient, and sets the round bit only when
    at least half a unit was lost. *)
Lemma shr_fexp_shift (m e : Z) (r : shr_record) (e' : Z) :
  0 <= m ->
  shr_fexp prec emax m e loc_Exact = (r, e') ->
  exists n, 0 <= n /\ e' = e + n
            /\ (n = 0 \/ e' = fexp prec emax (Zdigits2 m + e))
            /\ shr_inv m n r
            /\ (shr_r r = true -> 2 ^ n <= 2 * (m - shr_m r * 2 ^ n)).
Proof.
  intros Hm. unfold shr_fexp, shr.
  pose proof (shr_inv_init m Hm) as Hinit.
  destruct (fexp prec emax (Zdigits2 m + e) - e) as [| q | q] eqn:Hn;
    intros Heq; injection Heq as <- <-.
  - exists 0. split; [lia|]. split; [lia|]. split; [left; reflexivity|].
    split; [exact Hinit | cbn; discriminate].
  - exists (Zpos q). split; [lia|]. split; [reflexivity|].
    split; [right; lia|].
    pose proof (iter_shr_1_inv q m 0 _ ltac:(lia) Hinit) as Hinv.
    pose proof (iter_shr_1_round_bit q m 0 _ ltac:(lia) Hinit) as Hbit.
    cbn [Z.add] in Hinv, Hbit. split; assumption.
  - exists 0. split; [lia|]. split; [lia|]. split; [left; reflexivity|].
    split; [exact Hinit | cbn; discriminate].
Qed.

Lemma round_nearest_even_cases (r : shr_record) :
  round_nearest_even (shr_m r) (loc_of_shr_record r) = shr_m r
  \/ (round_nearest_even (shr_m r) (loc_of_shr_record r) = shr_m r + 1
      /\ shr_r r = true).
Proof.
  destruct r as [m [] []]; cbn; try (left; reflexivity);
    try (right; split; reflexivity).
  destruct (Z.even m); [left | right; split]; reflexivity.
Qed.

Lemma quotient_of_bounds (q M d : Z) :
  0 < d -> q * d <= M < (q + 1) * d -> M / d = q.
Proof.
  intros Hd H. symmetry. apply (Z.div_unique M d q (M - q * d)); lia.
Qed.

Lemma Zdigits2_lt_pow (m N : Z) :
  0 <= m -> 0 <= N -> m < 2 ^ N -> Zdigits2 m <= N.
Proof.
  intros Hm HN Hlt. destruct m as [| p | p]; cbn [Zdigits2]; try lia.
  pose proof (digits2_pos_bounds p) as [Hlo _].
  assert (H : 2 ^ (Zpos (digits2_pos p) - 1) < 2 ^ N) by lia.
  apply Z.pow_lt_mono_r_iff in H; lia.
Qed.

Lemma of_Z_255 : of_Z 255 = S754_finite false 8972014882652160 (-45).
Proof. vm_compute. reflexivity. Qed.

Lemma one_eq : one = S754_finite false 4503599627370496 (-52).
Proof. vm_compute. reflexivity. Qed.

(** A valid float between 0 and 1 is a zero or a positive float whose
    mantissa is at most [2 ^ (- e)]. *)
Lemma unit_interval_shape (a : float) :
  valid a = true -> Float.leb zero a = true -> Float.leb a one = true ->
  (exists s, a = S754_zero s)
  \/ exists m e, a = S754_finite false m e /\ e <= -52
                 /\ Zpos m <= 2 ^ (- e).
Proof.
  intros Hv H0 H1. rewrite one_eq in H1.
  destruct a as [s | s | | s m e]; try discriminate;
    try (destruct s; discriminate).
  - left. exists s. reflexivity.
  - right. destruct s; [discriminate|]. exists m, e. split; [reflexivity|].
    unfold Float.leb, SFleb, SFcompare in H1.
    unfold valid, valid_binary, bounded, canonical_mantissa in Hv.
    apply andb_prop in Hv as [Hc _]. apply Z.eqb_eq in Hc.
    pose proof (digits2_pos_bounds m) as [_ Hhi].
    destruct (Z.compare_spec e (-52)) as [-> | Hlt | Hgt].
    + split; [lia|]. change (2 ^ (- -52)) with 4503599627370496.
      rewrite Pos.compare_cont_spec in H1.
      destruct (Pos.compare_spec m 4503599627370496) as [Heq | Hl | Hg];
        cbn [Pos.switch_Eq] in H1; try discriminate.
      * rewrite Heq. reflexivity.
      * apply Pos2Z.pos_lt_pos in Hl. apply Z.lt_le_incl. exact Hl.
    + split; [lia|].
      assert (Hd : Zpos (digits2_pos m) <= 53).
      { unfold fexp, emin, prec, emax in Hc. lia. }
      apply Z.lt_le_incl. eapply Z.lt_le_trans; [exact Hhi|].
      apply Z.pow_le_mono_r; lia.
    + discriminate.
Qed.

(** The product [255 * a], rounded to nearest even and then cut to an
    integer, against the exact product: the integer part of the exact
    product, or the next integer when the exact product is within
    [2 ^ -46] of it. *)
Lemma mul_255_exact (m : positive) (e : Z) :
  e <= -52 -> Zpos m <= 2 ^ (- e) ->
  exists b,
    trunc (binary_round_aux prec emax false
             (Zpos (8972014882652160 * m)) (-45 + e) loc_Exact) = Ok b
    /\ (b = (255 * Zpos m) / 2 ^ (- e)
        \/ (b = (255 * Zpos m) / 2 ^ (- e) + 1
            /\ (255 * 2 ^ 46 * Zpos m) / 2 ^ (- e)
               = ((255 * Zpos m) / 2 ^ (- e) + 1) * 2 ^ 46 - 1)).
Proof.
  intros He Hm.
  set (T := 2 ^ (- e)) in *. set (G := 2 ^ 45).
  assert (HT : 0 < T) by (apply Z.pow_pos_nonneg; lia).
  assert (HG : 0 < G) by (apply Z.pow_pos_nonneg; lia).
  set (M := Zpos (8972014882652160 * m)).
  assert (HM : M = 255 * G * Zpos m).
  { unfold M. rewrite Pos2Z.inj_mul. reflexivity. }
  assert (HM0 : 0 < M) by (unfold M; lia).
  assert (HGT : 2 ^ (- (-45 + e)) = G * T).
  { unfold G, T. rewrite <- Z.pow_add_r by lia. f_equal. lia. }
  assert (HMT : M <= 255 * (G * T)) by (rewrite HM; nia).
  unfold binary_round_aux.
  destruct (shr_fexp prec emax M (-45 + e) loc_Exact) as [r1 e1] eqn:H1.
  destruct (shr_fexp_shift M (-45 + e) r1 e1 ltac:(lia) H1)
    as (n1 & Hn1 & He1 & Hf1 & (Hq1 & Hb1 & _ & _) & Hbit).
  assert (He1' : e1 <= -45).
  { destruct Hf1 as [-> | ->]; [lia|].
    assert (Hd : Zdigits2 M <= 8 + - (-45 + e)).
    { apply Zdigits2_lt_pow; try lia.
      rewrite Z.pow_add_r, HGT by lia. change (2 ^ 8) with 256. nia. }
    unfold fexp, emin, prec, emax. lia. }
  set (q1 := shr_m r1) in *.
  set (A := 2 ^ n1) in *. set (D := 2 ^ (- e1)).
  assert (HA : 0 < A) by (apply Z.pow_pos_nonneg; lia).
  assert (HD : 0 < D) by (apply Z.pow_pos_nonneg; lia).
  assert (HAD : A * D = G * T).
  { rewrite <- HGT. unfold A, D. rewrite <- Z.pow_add_r by lia.
    f_equal. lia. }
  assert (HDG : G <= D) by (apply Z.pow_le_mono_r; lia).
  set (m1 := round_nearest_even q1 (loc_of_shr_record r1)).
  assert (Hm1 : m1 = q1 \/ (m1 = q1 + 1 /\ shr_r r1 = true))
    by apply round_nearest_even_cases.
  assert (Hm1pos : 0 <= m1) by lia.
  assert (Hq1D : q1 <= 255 * D).
  { assert (q1 * A <= 255 * D * A) by nia. nia. }
  destruct (shr_fexp prec emax m1 e1 loc_Exact) as [r2 e2] eqn:H2.
  destruct (shr_fexp_shift m1 e1 r2 e2 Hm1pos H2)
    as (n2 & Hn2 & He2 & Hf2 & (Hq2 & Hb2 & _ & _) & _).
  assert (He2' : e2 <= 0).
  { destruct Hf2 as [-> | ->]; [lia|].
    assert (Hd : Zdigits2 m1 <= 9 + - e1).
    { apply Zdigits2_lt_pow; try lia.
      rewrite Z.pow_add_r by lia. fold D. change (2 ^ 9) with 512. lia. }
    unfold fexp, emin, prec, emax. lia. }
  set (q2 := shr_m r2) in *.
  set (B := 2 ^ n2) in *. set (F := 2 ^ (- e2)).
  assert (HB : 0 < B) by (apply Z.pow_pos_nonneg; lia).
  assert (HF : 0 < F) by (apply Z.pow_pos_nonneg; lia).
  assert (HBF : B * F = D).
  { unfold B, F, D. rewrite <- Z.pow_add_r by lia. f_equal. lia. }
  (* the integer the program reads off the rounded product *)
  assert (Hres : trunc match q2 with
                       | 0 => S754_zero false
                       | Zpos p =>
                           if e2 <=? emax - prec
                           then S754_finite false p e2
                           else S754_infinity false
                       | Zneg _ => S754_nan
                       end = Ok (m1 / D)).
  { assert (Hdiv : m1 / D = q2 / F).
    { apply quotient_of_bounds; [exact HD|].
      pose proof (Z.mul_div_le q2 F HF) as Hlo.
      pose proof (Z.mul_succ_div_gt q2 F HF) as Hhi.
      rewrite <- HBF. split; nia. }
    rewrite Hdiv. destruct q2 as [| p | p] eqn:Hq; [| | lia].
    - cbn [trunc]. rewrite Z.div_0_l by lia. reflexivity.
    - replace (e2 <=? emax - prec) with true
        by (symmetry; apply Z.leb_le; unfold emax, prec; lia).
      cbn [trunc cond_Zopp]. rewrite Z.shiftl_div_pow2 by lia.
      reflexivity. }
  exists (m1 / D). split; [exact Hres|].
  set (E := 255 * Zpos m / T).
  assert (HE : q1 / D = E).
  { unfold E. symmetry. apply quotient_of_bounds; [exact HT|].
    pose proof (Z.mul_div_le q1 D HD) as Hlo.
    pose proof (Z.mul_succ_div_gt q1 D HD) as Hhi.
    set (E' := q1 / D) in *.
    assert (E' * (G * T) <= M) by (rewrite <- HAD; nia).
    assert (M < (E' + 1) * (G * T)) by (rewrite <- HAD; nia).
    rewrite HM in *. split; nia. }
  pose proof (Z.mul_div_le q1 D HD) as Hlo.
  pose proof (Z.mul_succ_div_gt q1 D HD) as Hhi.
  rewrite HE in Hlo, Hhi.
  destruct Hm1 as [-> | [-> Hr]].
  - left. exact HE.
  - destruct (Z.lt_ge_cases (q1 + 1) ((E + 1) * D)) as [Hlt | Hge].
    + left. apply quotient_of_bounds; [exact HD | lia].
    + right. assert (Heq : q1 + 1 = (E + 1) * D) by lia.
      split; [apply quotient_of_bounds; [exact HD | lia]|].
      specialize (Hbit Hr). fold A q1 in Hbit.
      apply quotient_of_bounds; [exact HT|].
      assert (H2M : 255 * 2 ^ 46 * Zpos m = 2 * M).
      { rewrite HM. unfold G. change (2 ^ 46) with (2 * 2 ^ 45). ring. }
      assert (HT46 : (E + 1) * 2 ^ 46 * T = 2 * (q1 + 1) * A).
      { rewrite Heq. change (2 ^ 46) with (2 * 2 ^ 45). fold G.
        replace ((E + 1) * (2 * G) * T) with (2 * (E + 1) * (G * T)) by ring.
        rewrite <- HAD. ring. }
      assert (HAT : A <= T).
      { assert (A * G <= G * T) by (rewrite <- HAD; nia). nia. }
      rewrite H2M. split.
      * replace (((E + 1) * 2 ^ 46 - 1) * T)
          with ((E + 1) * 2 ^ 46 * T - T) by ring.
        rewrite HT46. lia.
      * replace (((E + 1) * 2 ^ 46 - 1 + 1) * T)
          with ((E + 1) * 2 ^ 46 * T) by ring.
        rewrite HT46. lia.
Qed.

Lemma str_eqb_eq (u v : str) : str_eqb u v = true -> u = v.
Proof.
  revert v. induction u as [| x u IH]; intros [| y v]; cbn;
    try discriminate; [reflexivity|].
  intros H. apply andb_prop in H as [Hx Hv]. apply Ascii.eqb_eq in Hx.
  subst. f_equal. apply IH. exact Hv.
Qed.

Lemma format_02x_byte (b : Z) :
  0 <= b <= 255 -> format_02x b = [hex_digit (b / 16); hex_digit (b mod 16)].
Proof.
  intros Hb.
  assert (H : forallb (fun n => str_eqb (format_02x (Z.of_nat n))
                [hex_digit (Z.of_nat n / 16); hex_digit (Z.of_nat n mod 16)])
              (seq 0 256) = true) by (vm_compute; reflexivity).
  rewrite forallb_forall in H.
  specialize (H (Z.to_nat b)). rewrite Z2Nat.id in H by lia.
  apply str_eqb_eq, H, in_seq. lia.
Qed.

(** ** The alpha byte *)

Lemma alpha_byte_intro (a : float) (b E F : Z) :
  floor_scaled 255 a = Some E ->
  floor_scaled (255 * 2 ^ 46) a = Some F ->
  b = E \/ (b = E + 1 /\ F = (E + 1) * 2 ^ 46 - 1) ->
  alpha_byte a b = true.
Proof.
  intros HE HF H. unfold alpha_byte. rewrite HE, HF.
  destruct H as [-> | [-> ->]]; rewrite !Z.eqb_refl;
    [reflexivity | apply orb_true_r].
Qed.

(** The byte of an alpha between 0 and 1. *)
Lemma alpha_to_hex_byte (a : float) :
  valid a = true -> Float.leb zero a = true -> Float.leb a one = true ->
  exists b : Z,
    alpha_byte a b = true
    /\ 0 <= b <= 255
    /\ alpha_to_hex (PyFloat a)
       = Ok [hex_digit (b / 16); hex_digit (b mod 16)].
Proof.
  intros Hv H0 H1. unfold alpha_to_hex. cbn [py_float bind].
  destruct (unit_interval_shape a Hv H0 H1)
    as [[s ->] | (m & e & -> & He & Hm)]; rewrite of_Z_255.
  - exists 0. repeat split; try lia; reflexivity.
  - unfold Float.mul, SFmul. cbn [xorb].
    destruct (mul_255_exact m e He Hm) as (b & Htr & Hb).
    rewrite Htr. cbn [bind].
    assert (HT : 0 < 2 ^ (- e)) by (apply Z.pow_pos_nonneg; lia).
    assert (HE : 0 <= 255 * Zpos m / 2 ^ (- e) <= 255).
    { split; [apply Z.div_pos; lia|]. apply Z.div_le_upper_bound; nia. }
    assert (HF : 255 * 2 ^ 46 * Zpos m / 2 ^ (- e) <= 255 * 2 ^ 46).
    { apply Z.div_le_upper_bound; [lia|].
      change (2 ^ 46) with 70368744177664. nia. }
    assert (Hrange : 0 <= b <= 255).
    { destruct Hb as [-> | [-> Hgap]]; [lia|]. rewrite Hgap in HF.
      change (2 ^ 46) with 70368744177664 in HF. lia. }
    assert (Hneg : (0 <=? e) = false) by (apply Z.leb_gt; lia).
    exists b. split; [|split; [exact Hrange|]].
    + apply (alpha_byte_intro _ b (255 * Zpos m / 2 ^ (- e))
               (255 * 2 ^ 46 * Zpos m / 2 ^ (- e)));
        [cbn [floor_scaled cond_Zopp]; rewrite Hneg; reflexivity
        | cbn [floor_scaled cond_Zopp]; rewrite Hneg; reflexivity
        | exact Hb].
    + rewrite (format_02x_byte _ Hrange). reflexivity.
Qed.

(** C10, as the claim states it, fails.  The float of 0.6 is a little
    below 0.6: the floor of 255 times it is 152, the two digits [98]; the
    program rounds the product to 153.0 and renders [99].  And a text is
    first rounded to a float: 0.9999999999999999999 becomes 1.0 and is
    rendered [ff], where the floor of 255 times the decimal number is 254. *)
Lemma alpha_to_hex_not_exact_floor :
  (valid (ratio 6 10) = true
   /\ Float.leb zero (ratio 6 10) = true
   /\ Float.leb (ratio 6 10) one = true
   /\ floor_scaled 255 (ratio 6 10) = Some 152
   /\ format_02x 152 = ("98" : str)
   /\ alpha_to_hex (PyFloat (ratio 6 10)) = Ok ("99" : str))
  /\ (255 * 9999999999999999999 / 10 ^ 19 = 254
      /\ alpha_to_hex (PyStr "0.9999999999999999999") = Ok ("ff" : str)).
Proof. repeat split; vm_compute; reflexivity. Qed.

(** C10, amended.  For every alpha between 0 and 1, taken as the binary64
    float [a] the program computes with (the value of [float(v)]),
    [alpha_to_hex] renders a byte [b] between 0 and 255 as exactly two
    lower-case hexadecimal digits; [b] is the floor of the exact product
    [255 * a], or the next integer, which it can be only when the exact
    product is within [2 ^ -46] of that integer (the binary64 product is
    then the integer itself).  Nothing is rounded to the nearest
    integer. *)
Theorem alpha_to_hex_floor (v : pyval) (a : float) :
  py_float v = Ok a ->
  valid a = true -> Float.leb zero a = true -> Float.leb a one = true ->
  exists b : Z,
    alpha_byte a b = true
    /\ 0 <= b <= 255
    /\ alpha_to_hex v = Ok [hex_digit (b / 16); hex_digit (b mod 16)].
Proof.
  intros Hf Hv H0 H1.
  destruct (alpha_to_hex_byte a Hv H0 H1) as (b & Hbyte & Hb & Hhex).
  exists b. split; [exact Hbyte|]. split; [exact Hb|].
  unfold alpha_to_hex in *. rewrite Hf. exact Hhex.
Qed.

Lemma alpha_to_hex_floor_witness :
  exists b : Z,
    alpha_byte half b = true
    /\ 0 <= b <= 255
    /\ alpha_to_hex (PyStr "0.5")
       = Ok [hex_digit (b / 16); hex_digit (b mod 16)].
Proof.
  apply (alpha_to_hex_floor (PyStr "0.5") half); vm_compute; reflexivity.
Defined.

(** The product 127.5 is cut to 127, not rounded to 128; and the floor is
    the floor of the product as the machine rounds it: 255 times the float
    of 0.6 is 153.0. *)
Lemma alpha_to_hex_half :
  alpha_to_hex (PyStr "0.5") = Ok ("7f" : str)
  /\ alpha_to_hex (PyStr "0.6") = Ok ("99" : str).
Proof. split; vm_compute; reflexivity. Qed.

(** ** The model of the floats agrees with the machine

    The same operations on primitive floats, which the kernel runs on the
    processor, give the floats of the model. *)

Example ratio_agrees_with_machine :
  machine_ratio 1 10 = ratio 1 10
  /\ machine_ratio 2 3 = Colorsys.TWO_THIRD
  /\ machine_ratio 200 360 = ratio 200 360
  /\ machine_ratio 25 100 = ratio 25 100.
Proof. repeat split; vm_compute; reflexivity. Qed.

Example mul_agrees_with_machine :
  machine_scaled 6 10 = Float.mul (of_Z 255) (ratio 6 10)
  /\ machine_scaled 2 10 = Float.mul (of_Z 255) (ratio 2 10)
  /\ machine_scaled 1 3 = Float.mul (of_Z 255) Colorsys.ONE_THIRD.
Proof. repeat split; vm_compute; reflexivity. Qed.

(** ** Resolution of colours *)

(** For an rgb value with an alpha, [match_rgb] already holds the canonical
    literal; [try_match_color] then reads the suffix back as an integer
    between 0 and 255 and hands it to [hexa_to_hex] as if it were an alpha
    between 0 and 1. *)
Lemma match_rgb_half_alpha :
  match_rgb "rgb(255, 0, 0, 0.5)" = Ok (Some ("#ff00007f" : str)).
Proof. vm_compute. reflexivity. Qed.

Lemma get_alpha_hex_reads_byte :
  get_alpha_hex "#ff00007f" = Ok (PyInt 127).
Proof. vm_compute. reflexivity. Qed.

Lemma alpha_to_hex_of_byte :
  alpha_to_hex (PyInt 127) = Ok ("7e81" : str)
  /\ alpha_to_hex (PyInt 204) = Ok ("cb34" : str).
Proof. split; vm_compute; reflexivity. Qed.

(** C1. [rgb(255, 0, 0)] resolves to [#ff0000], as the claim says; but
    [rgb(255, 0, 0, 0.5)] resolves to [#ff00007e81] and not to [#ff00007f]:
    the byte 127 of the alpha is multiplied by 255 once more. *)
Theorem rgb_alpha_resolution :
  try_match_color "rgb(255, 0, 0)" = Ok ("#ff0000" : str)
  /\ try_match_color "rgb(255, 0, 0, 0.5)" = Ok ("#ff00007e81" : str).
Proof. split; vm_compute; reflexivity. Qed.

Lemma hex_digit_class (c : ascii) :
  is_hex_digit c = true ->
  alnum_comma c = true /\ Ascii.eqb c "l" = false.
Proof.
  destruct c as [[] [] [] [] [] [] [] []]; vm_compute; intros H;
    try discriminate; split; reflexivity.
Qed.

(** A match of the adjuster pattern starts with the letters [a] and [l]. *)
Lemma match_at_alpha_start (s : str) :
  match_at re_alpha s = None \/ exists u, s = "a"%char :: "l"%char :: u.
Proof.
  unfold match_at, re_alpha. rewrite rmatch_cat.
  destruct s as [| a [| b u]]; cbn [Lit list_ascii_of_string rmatch].
  - left. reflexivity.
  - left. destruct (Ascii.eqb a "a"); reflexivity.
  - destruct (Ascii.eqb a "a") eqn:Ha; [|left; reflexivity].
    destruct (Ascii.eqb b "l") eqn:Hb; [|left; reflexivity].
    right. exists u. apply Ascii.eqb_eq in Ha, Hb. subst. reflexivity.
Qed.

Lemma search_alpha_none (s : str) :
  forallb (fun c => negb (Ascii.eqb c "l")) s = true ->
  forall pos, search_from re_alpha pos s = None.
Proof.
  induction s as [| c t IH]; intros H pos; cbn [search_from].
  - destruct (match_at_alpha_start []) as [-> | [u Hu]];
      [reflexivity | discriminate].
  - cbn [forallb] in H. apply andb_prop in H as [Hc Ht].
    destruct (match_at_alpha_start (c :: t)) as [-> | [u Hu]].
    + apply IH. exact Ht.
    + injection Hu as -> ->. cbn in Ht. discriminate.
Qed.

(** The part of the idempotence that holds: a literal of six hexadecimal
    digits, without alpha, resolves to itself. *)
Lemma try_match_color_six_digits (c1 c2 c3 c4 c5 c6 : ascii) :
  forallb is_hex_digit [c1; c2; c3; c4; c5; c6] = true ->
  try_match_color ("#"%char :: [c1; c2; c3; c4; c5; c6])
  = Ok ("#"%char :: [c1; c2; c3; c4; c5; c6]).
Proof.
  intros H. cbn [forallb] in H.
  repeat (apply andb_prop in H as [?H H]).
  repeat match goal with
         | Hc : is_hex_digit _ = true |- _ =>
             apply hex_digit_class in Hc as [? ?]
         end.
  set (s := "#"%char :: [c1; c2; c3; c4; c5; c6]).
  assert (Ha : search re_alpha s = None).
  { apply search_alpha_none. unfold s. cbn [forallb].
    repeat match goal with
           | Hc : Ascii.eqb _ "l" = false |- _ => rewrite Hc; clear Hc
           end.
    reflexivity. }
  assert (Hh : match_hex s = Ok (Some s)).
  { unfold match_hex, get_alpha_adjuster. rewrite Ha.
    unfold search, search_from, match_at, re_hex, s.
    cbn [rmatch Rep].
    repeat match goal with
           | Hc : alnum_comma _ = true |- _ => rewrite Hc; clear Hc
           end.
    reflexivity. }
  unfold try_match_color. rewrite Hh. cbn [bind is_falsy].
  unfold s at 1. cbn [bind is_falsy].
  unfold get_alpha_hex, get_alpha_adjuster. rewrite Ha. reflexivity.
Qed.

Lemma all_ascii_complete (c : ascii) : In c all_ascii.
Proof.
  unfold all_ascii. rewrite <- (ascii_nat_embedding c). apply in_map.
  apply in_seq. pose proof (nat_ascii_bounded c). lia.
Qed.

Lemma suffix_kept_iff_zero (c7 c8 : ascii) :
  is_hex_digit c7 = true -> is_hex_digit c8 = true ->
  suffix_kept c7 c8 = zero_byte c7 c8.
Proof.
  intros H7 H8.
  assert (H : forallb (fun a => forallb (fun b =>
            implb (is_hex_digit a && is_hex_digit b)
                  (Bool.eqb (suffix_kept a b) (zero_byte a b)))
            all_ascii) all_ascii = true) by (vm_compute; reflexivity).
  rewrite forallb_forall in H. specialize (H c7 (all_ascii_complete c7)).
  rewrite forallb_forall in H. specialize (H c8 (all_ascii_complete c8)).
  rewrite H7, H8 in H. cbn in H. apply eqb_prop in H. exact H.
Qed.

Lemma str_eqb_refl (u : str) : str_eqb u u = true.
Proof.
  induction u as [| x u IH]; cbn; [reflexivity|].
  rewrite Ascii.eqb_refl. exact IH.
Qed.

(** A literal of eight hexadecimal digits keeps its six colour digits; its
    alpha suffix goes through [get_alpha_hex] and [alpha_to_hex]. *)
Lemma try_match_color_eight_digits (c1 c2 c3 c4 c5 c6 c7 c8 : ascii) :
  forallb is_hex_digit [c1; c2; c3; c4; c5; c6; c7; c8] = true ->
  try_match_color ("#"%char :: [c1; c2; c3; c4; c5; c6; c7; c8])
  = (t <- rescaled c7 c8 ;; Ok ("#"%char :: [c1; c2; c3; c4; c5; c6] ++ t)).
Proof.
  intros H. cbn [forallb] in H.
  repeat (apply andb_prop in H as [?H H]).
  repeat match goal with
         | Hc : is_hex_digit _ = true |- _ =>
             apply hex_digit_class in Hc as [? ?]
         end.
  set (s := "#"%char :: [c1; c2; c3; c4; c5; c6; c7; c8]).
  assert (Ha : search re_alpha s = None).
  { apply search_alpha_none. unfold s. cbn [forallb].
    repeat match goal with
           | Hc : Ascii.eqb _ "l" = false |- _ => rewrite Hc; clear Hc
           end.
    reflexivity. }
  assert (Hh : match_hex s = Ok (Some s)).
  { unfold match_hex, get_alpha_adjuster. rewrite Ha.
    unfold search, search_from, match_at, re_hex, s.
    cbn [rmatch Rep].
    repeat match goal with
           | Hc : alnum_comma _ = true |- _ => rewrite Hc; clear Hc
           end.
    reflexivity. }
  unfold try_match_color. rewrite Hh. subst s. cbn [bind is_falsy].
  unfold rescaled.
  change (get_alpha_hex (("#000000" : str) ++ [c7; c8]))
    with (get_alpha_hex ("#"%char :: [c1; c2; c3; c4; c5; c6; c7; c8])).
  destruct (get_alpha_hex ("#"%char :: [c1; c2; c3; c4; c5; c6; c7; c8]))
    as [d | e]; [|reflexivity].
  cbn [bind]. unfold get_alpha_adjuster. rewrite Ha. cbn [bind].
  destruct (truthy d); [|reflexivity].
  unfold hexa_to_hex. destruct (alpha_to_hex d); reflexivity.
Qed.

(** A literal of eight hexadecimal digits resolves to itself exactly when
    its alpha suffix is [00]. *)
Lemma eight_digit_literal_fixed_iff_zero_alpha
    (c1 c2 c3 c4 c5 c6 c7 c8 : ascii) :
  forallb is_hex_digit [c1; c2; c3; c4; c5; c6; c7; c8] = true ->
  try_match_color ("#"%char :: [c1; c2; c3; c4; c5; c6; c7; c8])
  = Ok ("#"%char :: [c1; c2; c3; c4; c5; c6; c7; c8])
  <-> zero_byte c7 c8 = true.
Proof.
  intros H. rewrite (try_match_color_eight_digits _ _ _ _ _ _ _ _ H).
  cbn [forallb] in H. repeat (apply andb_prop in H as [?H H]).
  rewrite <- (suffix_kept_iff_zero c7 c8) by assumption.
  unfold suffix_kept. destruct (rescaled c7 c8) as [t | e]; cbn [bind].
  - split.
    + intros Heq. injection Heq as ->. apply str_eqb_refl.
    + intros Heq. apply str_eqb_eq in Heq. subst. reflexivity.
  - split; discriminate.
Qed.

(** C2. [#112233cc] is a canonical literal, and resolving it does not give
    it back: the result is [#112233cb34], the byte [cc] = 204 having been
    multiplied by 255. *)
Theorem canonical_literal_with_alpha_not_fixed :
  canonical "#112233cc" = true
  /\ try_match_color "#112233cc" = Ok ("#112233cb34" : str)
  /\ try_match_color "#112233cc" <> Ok ("#112233cc" : str).
Proof.
  split; [|split]; vm_compute; try reflexivity. discriminate.
Qed.

(** C3. The value [#112233cc] is recognized as a colour with an alpha, and
    its resolution [#112233cb34] has four alpha digits: it is not a canonical
    literal. *)
Theorem resolved_hex_alpha_not_canonical :
  match_hex "#112233cc" = Ok (Some ("#112233cc" : str))
  /\ try_match_color "#112233cc" = Ok ("#112233cb34" : str)
  /\ canonical "#112233cb34" = false.
Proof. repeat split; vm_compute; reflexivity. Qed.

Lemma py_int16_byte (b : Z) :
  0 <= b <= 255 ->
  py_int16 [hex_digit (b / 16); hex_digit (b mod 16)] = Ok b.
Proof.
  intros Hb.
  assert (H : forallb (fun n =>
              match py_int16 [hex_digit (Z.of_nat n / 16);
                              hex_digit (Z.of_nat n mod 16)] with
              | Ok z => z =? Z.of_nat n
              | Raise _ => false
              end) (seq 0 256) = true) by (vm_compute; reflexivity).
  rewrite forallb_forall in H.
  specialize (H (Z.to_nat b)). rewrite Z2Nat.id in H by lia.
  assert (Hin : In (Z.to_nat b) (seq 0 256)) by (apply in_seq; lia).
  specialize (H Hin).
  destruct (py_int16 [hex_digit (b / 16); hex_digit (b mod 16)]) as [z | e];
    [|discriminate].
  apply Z.eqb_eq in H. subst. reflexivity.
Qed.

(** The part of the override that holds.  When the value holds a hex
    literal, whose first group is [g1], and an adjuster whose alpha [a] is
    between 0 and 1 and is not zero, the result is [g1] followed by the byte
    of [a]: an alpha in the literal plays no part. *)
Lemma nonzero_adjuster_overrides (string g1 : str) (m al : pymatch)
    (a : float) :
  search re_hex string = Some m ->
  group m 1 = Some g1 ->
  List.length g1 = 7%nat ->
  search re_alpha string = Some al ->
  float_of_str (group_str al 1) = Ok a ->
  valid a = true -> Float.leb zero a = true -> Float.leb a one = true ->
  Float.eqb a zero = false ->
  exists b : Z,
    alpha_byte a b = true
    /\ 0 <= b <= 255
    /\ try_match_color string
       = Ok (g1 ++ [hex_digit (b / 16); hex_digit (b mod 16)]).
Proof.
  intros Hm Hg1 Hlen Hal Hf Hv H0 H1 Hnz.
  destruct (alpha_to_hex_byte a Hv H0 H1) as (b & Hfl & Hb & Hhex).
  exists b. split; [exact Hfl|]. split; [exact Hb|].
  assert (Hadj : forall d, get_alpha_adjuster string d = Ok (PyFloat a)).
  { intros d. unfold get_alpha_adjuster. rewrite Hal, Hf. reflexivity. }
  assert (Ht : truthy (PyFloat a) = true) by (cbn; rewrite Hnz; reflexivity).
  unfold try_match_color, match_hex. rewrite Hm, Hadj. cbn [bind].
  rewrite Ht, Hhex. cbn [bind]. unfold group_str. rewrite Hg1.
  do 8 (destruct g1 as [| ? g1]; try discriminate). clear Hlen.
  cbn [app is_falsy bind].
  unfold get_alpha_hex. cbn [List.length Nat.ltb Nat.leb slice_from skipn].
  rewrite (py_int16_byte b Hb). cbn [bind].
  rewrite Hadj. cbn [bind]. rewrite Ht.
  unfold hexa_to_hex. rewrite Hhex. reflexivity.
Qed.

Example nonzero_adjuster_overrides_example :
  exists b : Z,
    alpha_byte (ratio 2 10) b = true
    /\ 0 <= b <= 255
    /\ try_match_color "#112233cc alpha(0.2)"
       = Ok (("#112233" : str) ++ [hex_digit (b / 16); hex_digit (b mod 16)]).
Proof.
  eapply (nonzero_adjuster_overrides "#112233cc alpha(0.2)" "#112233");
    vm_compute; reflexivity.
Qed.

(** C4. [alpha(0.2)] overrides the alpha [cc] of the literal and gives the
    byte [33]; [alpha(0)] does not: the float [0.0] of the adjuster fails
    the test [if alpha:] and the alpha [cc] of the literal stays. *)
Theorem adjuster_overrides_unless_zero :
  try_match_color "#112233cc alpha(0.2)" = Ok ("#11223333" : str)
  /\ get_alpha_adjuster "#112233cc alpha(0)" PyNone = Ok (PyFloat zero)
  /\ try_match_color "#112233cc alpha(0)" = Ok ("#112233cc" : str).
Proof. repeat split; vm_compute; reflexivity. Qed.

(** C5. [hsl(0, 100%, 50%)] resolves to [#ff0000].  For [hsl(0, 100%, 25%)]
    the transform gives the channels (0.5, 0, 0), a dark red whose first
    byte is 127, and the program resolves the value to [#000000]:
    [255*int(v)] is 0 for every channel below 1. *)
Theorem hsl_channels_truncated :
  try_match_color "hsl(0, 100%, 50%)" = Ok ("#ff0000" : str)
  /\ Colorsys.hls_to_rgb (ratio 0 360) (ratio 25 100) (ratio 100 100)
     = (half, zero, zero)
  /\ trunc (Float.mul (of_Z 255) half) = Ok 127
  /\ try_match_color "hsl(0, 100%, 25%)" = Ok ("#000000" : str).
Proof. repeat split; vm_compute; reflexivity. Qed.

(** ** Variables *)

Lemma replace_scan_skip (old new s : str) :
  forall k, (k <= List.length s)%nat ->
  replace_scan old new s k = replace_scan old new (skipn k s) O.
Proof.
  induction s as [| c t IH]; intros k Hk.
  - destruct k; [reflexivity | cbn in Hk; lia].
  - destruct k as [| k]; [reflexivity|].
    cbn [replace_scan skipn]. apply IH. cbn in Hk. lia.
Qed.

Lemma starts_with_app (old s : str) :
  starts_with old s = true ->
  s = old ++ skipn (List.length old) s
  /\ (List.length old <= List.length s)%nat.
Proof.
  revert s. induction old as [| x old IH]; intros s H.
  - split; [reflexivity | cbn; lia].
  - destruct s as [| y s]; [discriminate|]. cbn in H.
    apply andb_prop in H as [Hx Hs]. apply Ascii.eqb_eq in Hx. subst y.
    destruct (IH s Hs) as [Heq Hlen]. cbn [List.length skipn app].
    split; [f_equal; exact Heq | lia].
Qed.

(** Replacing a text by itself changes nothing. *)
Lemma str_replace_same (s old : str) : str_replace s old old = s.
Proof.
  unfold str_replace. destruct old as [| o old'].
  - cbn [app]. induction s as [| c t IH]; cbn; [reflexivity|].
    f_equal. exact IH.
  - set (old := o :: old').
    assert (H : forall n (u : str), (List.length u <= n)%nat ->
                replace_scan old old u O = u).
    { induction n as [| n IH]; intros u Hu.
      - destruct u; [reflexivity | cbn in Hu; lia].
      - destruct u as [| c t]; [reflexivity|]. cbn [replace_scan].
        destruct (starts_with old (c :: t)) eqn:Hs.
        + destruct (starts_with_app old (c :: t) Hs) as [Heq Hlen].
          change (List.length old) with (S (List.length old')) in *.
          cbn [List.length skipn Nat.pred] in *.
          rewrite replace_scan_skip by lia.
          rewrite IH.
          * symmetry. exact Heq.
          * rewrite length_skipn. lia.
        + f_equal. apply IH. cbn in Hu. lia. }
    apply (H (List.length s)). lia.
Qed.

(** With a table, a value that is not itself a declared reference and whose
    first reference is not declared is resolved as it stands. *)
Lemma parse_color_undeclared (key : str) (table : dict str) (m : pymatch) :
  dict_get key table = None ->
  search re_var key = Some m ->
  dict_get (m_text m) table = None ->
  parse_color key (Some table) = try_match_color key.
Proof.
  intros Hk Hm Ht. unfold parse_color.
  replace (match table with [] => None | _ :: _ => dict_get key table end)
    with (@None str) by (destruct table; [reflexivity | symmetry; exact Hk]).
  rewrite Hm, Ht, str_replace_same. reflexivity.
Qed.

(** C8. With a table, a declared reference resolves to the stored colour and
    an undeclared one passes through.  Without a table ([variables] is
    [None]) the second branch of [parse_color] calls [variables.get] and
    raises [AttributeError], and so does [parse] on the whole document. *)
Theorem undeclared_reference_without_table :
  parse_color "var(accent)" (Some accent_table) = Ok ("#112233" : str)
  /\ parse_color "var(missing)" (Some accent_table)
     = Ok ("var(missing)" : str)
  /\ parse_color "var(missing)" None = Raise AttributeError
  /\ parse doc_without_variables = Raise AttributeError.
Proof. repeat split; vm_compute; reflexivity. Qed.

(** A reference that is exactly a declared one resolves to the resolution
    of the stored expression, whatever the table. *)
Lemma parse_color_declared (key v : str) (table : dict str) :
  dict_get key table = Some v ->
  parse_color key (Some table) = try_match_color v.
Proof.
  intros H. unfold parse_color.
  destruct table as [| kv table']; [discriminate|]. rewrite H. reflexivity.
Qed.

(** ** The document *)

(** C9. A document without [globals] or without [rules] makes [parse] raise
    the [KeyError] of a field that is missing, and no theme is returned. *)
Theorem parse_missing_required_field (src : source) :
  src_globals src = None \/ src_rules src = None ->
  (src_globals src = None /\ parse src = Raise (KeyError "globals"))
  \/ (src_rules src = None /\ parse src = Raise (KeyError "rules")).
Proof.
  intros H. unfold parse.
  destruct (src_globals src) as [gl|] eqn:Hg.
  - destruct H as [H|H]; [discriminate|].
    right. split; [assumption|]. rewrite H. reflexivity.
  - left. split; reflexivity.
Qed.

Lemma parse_missing_required_field_witness :
  (src_globals doc_without_rules = None
   /\ parse doc_without_rules = Raise (KeyError "globals"))
  \/ (src_rules doc_without_rules = None
      /\ parse doc_without_rules = Raise (KeyError "rules")).
Proof.
  apply (parse_missing_required_field doc_without_rules).
  right. reflexivity.
Defined.

(** The end-to-end example. *)
Lemma parse_doc_example : parse doc_example = Ok theme_example.
Proof. vm_compute. reflexivity. Qed.

(** * Further properties *)

(** ** Runs of a class, literals and searches *)

Section StarClass.

Context {A : Type}.
Variable p : ascii -> bool.
Variable k : str -> caps -> option A.

Lemma star_class_greedy (s : str) :
  forall (n : nat) (g : caps) (a : A),
    (List.length s <= n)%nat ->
    k (drop_class p s) g = Some a ->
    star_loop (rmatch (Class p)) k n s g = Some a.
Proof.
  induction s as [| c t IH]; intros n g a Hn Hk.
  - destruct n; cbn [star_loop]; [exact Hk|]. rewrite rmatch_class. exact Hk.
  - destruct n as [| n]; [cbn in Hn; lia|].
    cbn [star_loop]. rewrite rmatch_class. cbn [drop_class] in Hk.
    destruct (p c); [|exact Hk].
    replace (List.length t <? List.length (c :: t))%nat with true
      by (symmetry; apply Nat.ltb_lt; cbn; lia).
    rewrite (IH n g a); [reflexivity | cbn in Hn; lia | exact Hk].
Qed.

Lemma drop_class_app (d rest : str) :
  forallb p d = true -> drop_class p rest = rest ->
  drop_class p (d ++ rest) = rest.
Proof.
  intros Hd Hr. induction d as [| c d IH]; [exact Hr|].
  cbn in Hd. apply andb_prop in Hd as [Hc Hd]. cbn. rewrite Hc.
  apply IH. exact Hd.
Qed.

Lemma firstn_app_sub (d rest : str) :
  firstn (List.length (d ++ rest) - List.length rest) (d ++ rest) = d.
Proof.
  rewrite length_app.
  replace (List.length d + List.length rest - List.length rest)%nat
    with (List.length d + 0)%nat by lia.
  rewrite firstn_app_2. cbn. apply app_nil_r.
Qed.

End StarClass.

(** A group [(p+)] takes a whole run of characters of the class. *)
Lemma group_plus_class {A : Type} (p : ascii -> bool)
    (k : str -> caps -> option A) (i : nat) (d rest : str) (g : caps)
    (a : A) :
  forallb p d = true -> d <> [] -> drop_class p rest = rest ->
  k rest ((i, d) :: g) = Some a ->
  rmatch (Group i (Plus (Class p))) (d ++ rest) g k = Some a.
Proof.
  intros Hd Hne Hr Hk. rewrite rmatch_group. unfold Plus.
  rewrite rmatch_cat. destruct d as [| c d]; [contradiction|].
  cbn in Hd. apply andb_prop in Hd as [Hc Hd].
  cbn [app]. rewrite rmatch_class, Hc, rmatch_star.
  apply star_class_greedy; [lia|].
  rewrite (drop_class_app p d rest Hd Hr).
  change (c :: d ++ rest) with ((c :: d) ++ rest).
  rewrite firstn_app_sub. exact Hk.
Qed.

Section Literals.

Context {A : Type}.
Variable k : str -> caps -> option A.

Lemma rmatch_lit_app (l s : str) (g : caps) :
  rmatch (Lit l) (l ++ s) g k = k s g.
Proof.
  induction l as [| c l IH]; [reflexivity|].
  cbn [Lit app]. rewrite rmatch_cat, rmatch_chr, Ascii.eqb_refl. exact IH.
Qed.

Lemma rmatch_lit_some (l s : str) (g : caps) (a : A) :
  rmatch (Lit l) s g k = Some a -> exists t, s = l ++ t.
Proof.
  revert s. induction l as [| c l IH]; intros s H.
  - exists s. reflexivity.
  - cbn [Lit] in H. rewrite rmatch_cat in H.
    destruct s as [| x s]; [discriminate|]. rewrite rmatch_chr in H.
    destruct (Ascii.eqb x c) eqn:Hx; [|discriminate].
    apply Ascii.eqb_eq in Hx. subst x.
    destruct (IH s H) as [t ->]. exists t. reflexivity.
Qed.

Lemma rmatch_opt_space (w rest : str) (g : caps) (a : A) :
  opt_space w = true -> drop_class space rest = rest ->
  k rest g = Some a ->
  rmatch (Opt (Class space)) (w ++ rest) g k = Some a.
Proof.
  intros Hw Hr Hk. destruct w as [| c [| c' w]]; try discriminate.
  - cbn [app rmatch]. destruct rest as [| x rest]; [exact Hk|].
    cbn in Hr. destruct (space x).
    + exfalso. pose proof (f_equal (@List.length ascii) Hr) as Hl.
      cbn in Hl. clear -Hl.
      assert (forall u : str, (List.length (drop_class space u)
                               <= List.length u)%nat).
      { induction u as [| y u IH]; cbn; [lia|].
        destruct (space y); cbn; lia. }
      specialize (H rest). lia.
    + exact Hk.
  - cbn in Hw. cbn [app rmatch]. rewrite Hw, Hk. reflexivity.
Qed.

End Literals.

(** Where a pattern can only match at a character [x], a text without [x]
    has no match. *)
Lemma search_from_none (r : regex) (x : ascii) :
  (forall t, match_at r t <> None -> has_char x t = true) ->
  forall s, has_char x s = false ->
  forall pos, search_from r pos s = None.
Proof.
  intros Hr. induction s as [| c t IH]; intros Hs pos; cbn [search_from].
  - destruct (match_at r []) as [[s' g]|] eqn:Hm; [|reflexivity].
    rewrite Hr in Hs by (rewrite Hm; discriminate). discriminate.
  - destruct (match_at r (c :: t)) as [[s' g]|] eqn:Hm.
    + rewrite Hr in Hs by (rewrite Hm; discriminate). discriminate.
    + apply IH. cbn in Hs. apply orb_false_elim in Hs. apply Hs.
Qed.

Lemma match_at_hex_hash (t : str) :
  match_at re_hex t <> None -> has_char "#" t = true.
Proof.
  unfold match_at, re_hex. rewrite rmatch_cat, rmatch_group, rmatch_cat.
  destruct t as [| c t]; [intros H; contradiction H; reflexivity|].
  rewrite rmatch_chr. destruct (Ascii.eqb c "#") eqn:Hc.
  - intros _. cbn. unfold is_char. rewrite Hc. reflexivity.
  - intros H. contradiction H. reflexivity.
Qed.

Lemma has_char_app (x : ascii) (u v : str) :
  has_char x (u ++ v) = has_char x u || has_char x v.
Proof. apply existsb_app. Qed.

Lemma match_at_rgb_paren (t : str) :
  match_at re_rgb t <> None -> has_char "(" t = true.
Proof.
  unfold match_at, re_rgb. rewrite rmatch_cat. intros H.
  destruct (rmatch (Lit "rgb(") t [] _) as [a|] eqn:Hm; [|contradiction].
  apply rmatch_lit_some in Hm as [u ->]. reflexivity.
Qed.

Lemma match_at_hsl_paren (t : str) :
  match_at re_hsl t <> None -> has_char "(" t = true.
Proof.
  unfold match_at, re_hsl. rewrite rmatch_cat. intros H.
  destruct (rmatch (Lit "hsl(") t [] _) as [a|] eqn:Hm; [|contradiction].
  apply rmatch_lit_some in Hm as [u ->]. reflexivity.
Qed.

(** X1. A text without [#] and without an opening parenthesis holds no
    colour in any of the three notations: [try_match_color] returns it as
    it is. *)
Theorem try_match_color_passes_plain_text (s : str) :
  has_char "#" s = false -> has_char "(" s = false ->
  try_match_color s = Ok s.
Proof.
  intros Hh Hp. unfold try_match_color, match_hex, match_rgb, match_hsl, search.
  rewrite (search_from_none re_hex "#" match_at_hex_hash s Hh).
  cbn [bind is_falsy].
  rewrite (search_from_none re_rgb "(" match_at_rgb_paren s Hp).
  cbn [bind is_falsy].
  rewrite (search_from_none re_hsl "(" match_at_hsl_paren s Hp).
  reflexivity.
Qed.

Lemma try_match_color_passes_plain_text_witness :
  try_match_color "bold italic" = Ok ("bold italic" : str).
Proof.
  apply (try_match_color_passes_plain_text "bold italic"); reflexivity.
Defined.

Lemma rmatch_opt_none {A : Type} (k : str -> caps -> option A) (r : regex)
    (s : str) (g : caps) :
  rmatch r s g k = None -> rmatch (Opt r) s g k = k s g.
Proof. intros H. cbn [rmatch]. rewrite H. reflexivity. Qed.

Lemma digit_not_space (c : ascii) : digit c = true -> space c = false.
Proof.
  destruct c as [[] [] [] [] [] [] [] []]; vm_compute; intros H;
    try discriminate; reflexivity.
Qed.

Lemma all_digits_inv (d : str) :
  all_digits d = true -> forallb digit d = true /\ d <> [].
Proof.
  destruct d as [| c d]; [discriminate|]. intros H. split; [exact H|].
  discriminate.
Qed.

Lemma drop_space_digits (d rest : str) :
  all_digits d = true -> drop_class space (d ++ rest) = d ++ rest.
Proof.
  destruct d as [| c d]; [discriminate|]. cbn. intros H.
  apply andb_prop in H as [Hc _]. rewrite (digit_not_space c Hc).
  reflexivity.
Qed.

Lemma match_at_rgb_text (d1 w1 d2 w2 d3 : str) :
  all_digits d1 = true -> all_digits d2 = true -> all_digits d3 = true ->
  opt_space w1 = true -> opt_space w2 = true ->
  match_at re_rgb (rgb_text d1 w1 d2 w2 d3)
  = Some ([], [(3%nat, d3); (2%nat, d2); (1%nat, d1)]).
Proof.
  intros H1 H2 H3 Hw1 Hw2.
  destruct (all_digits_inv d1 H1) as [Hd1 Hn1].
  destruct (all_digits_inv d2 H2) as [Hd2 Hn2].
  destruct (all_digits_inv d3 H3) as [Hd3 Hn3].
  unfold match_at, re_rgb, rgb_text.
  rewrite rmatch_cat, rmatch_lit_app.
  rewrite rmatch_cat. apply group_plus_class; try assumption;
    [reflexivity|].
  cbv beta. cbn [app list_ascii_of_string].
  rewrite rmatch_cat, rmatch_chr, Ascii.eqb_refl.
  rewrite rmatch_cat. apply rmatch_opt_space;
    [assumption | apply drop_space_digits; assumption |].
  rewrite rmatch_cat. apply group_plus_class; try assumption;
    [reflexivity|].
  cbv beta. cbn [app list_ascii_of_string].
  rewrite rmatch_cat, rmatch_chr, Ascii.eqb_refl.
  rewrite rmatch_cat. apply rmatch_opt_space;
    [assumption | apply drop_space_digits; assumption |].
  rewrite rmatch_cat. apply group_plus_class; try assumption;
    [reflexivity|].
  cbv beta. cbn [app list_ascii_of_string].
  rewrite rmatch_cat, rmatch_opt_none by reflexivity.
  reflexivity.
Qed.

Lemma has_char_class (p : ascii -> bool) (x : ascii) (d : str) :
  forallb p d = true -> p x = false -> has_char x d = false.
Proof.
  intros Hd Hx. unfold has_char. induction d as [| c d IH]; [reflexivity|].
  cbn [forallb] in Hd. apply andb_prop in Hd as [Hc Hd].
  cbn [existsb]. rewrite (IH Hd), orb_false_r.
  unfold is_char. destruct (Ascii.eqb c x) eqn:He; [|reflexivity].
  apply Ascii.eqb_eq in He. subst. congruence.
Qed.

Lemma has_char_opt_space (x : ascii) (w : str) :
  opt_space w = true -> space x = false -> has_char x w = false.
Proof.
  intros Hw Hx. destruct w as [| c [| c' w]]; try discriminate;
    [reflexivity|].
  cbn [opt_space] in Hw.
  apply (has_char_class space); [cbn [forallb]; rewrite Hw; reflexivity
                                | exact Hx].
Qed.

Lemma match_at_alpha_l (t : str) :
  match_at re_alpha t <> None -> has_char "l" t = true.
Proof.
  intros H. destruct (match_at_alpha_start t) as [Hn | [u ->]];
    [contradiction | reflexivity].
Qed.

Lemma digits_val_bounds (d : str) :
  forallb digit d = true -> forall acc, 0 <= acc -> 0 <= digits_val acc d.
Proof.
  induction d as [| c d IH]; intros Hd acc Hacc; [exact Hacc|].
  cbn in Hd. apply andb_prop in Hd as [Hc Hd]. cbn [digits_val].
  apply IH; [exact Hd|]. unfold digit, between in Hc.
  apply andb_prop in Hc as [Hlo _]. apply Z.leb_le in Hlo.
  unfold digit_val. lia.
Qed.

Lemma py_int_digits (d : str) :
  all_digits d = true -> Z.of_nat (List.length d) <= max_str_digits ->
  py_int d = Ok (digits_val 0 d).
Proof.
  intros H Hl. unfold py_int. rewrite H.
  apply Z.leb_le in Hl. rewrite Hl. reflexivity.
Qed.

(** X2. The text [rgb(r, g, b)], with nothing or one whitespace character
    after each comma, every channel written with at most [max_str_digits]
    digits and at most 255, resolves to [#] followed by the two lower-case
    hexadecimal digits of each channel. *)
Theorem rgb_text_resolves (d1 w1 d2 w2 d3 : str) :
  all_digits d1 = true -> all_digits d2 = true -> all_digits d3 = true ->
  Z.of_nat (List.length d1) <= max_str_digits ->
  Z.of_nat (List.length d2) <= max_str_digits ->
  Z.of_nat (List.length d3) <= max_str_digits ->
  opt_space w1 = true -> opt_space w2 = true ->
  digits_val 0 d1 <= 255 -> digits_val 0 d2 <= 255 ->
  digits_val 0 d3 <= 255 ->
  try_match_color (rgb_text d1 w1 d2 w2 d3)
  = Ok ("#"%char :: hex2 (digits_val 0 d1) ++ hex2 (digits_val 0 d2)
                 ++ hex2 (digits_val 0 d3)).
Proof.
  intros H1 H2 H3 Hk1 Hk2 Hk3 Hw1 Hw2 Hb1 Hb2 Hb3.
  destruct (all_digits_inv d1 H1) as [Hd1 _].
  destruct (all_digits_inv d2 H2) as [Hd2 _].
  destruct (all_digits_inv d3 H3) as [Hd3 _].
  set (s := rgb_text d1 w1 d2 w2 d3).
  assert (Hno : forall x, digit x = false -> space x = false ->
                  has_char x "rgb(" = false -> has_char x "," = false ->
                  has_char x ")" = false -> has_char x s = false).
  { intros x Hx Hsx Hl1 Hl2 Hl3. unfold s, rgb_text.
    rewrite !has_char_app, Hl1, Hl2, Hl3.
    rewrite (has_char_class digit x d1 Hd1 Hx),
            (has_char_class digit x d2 Hd2 Hx),
            (has_char_class digit x d3 Hd3 Hx),
            (has_char_opt_space x w1 Hw1 Hsx),
            (has_char_opt_space x w2 Hw2 Hsx).
    reflexivity. }
  assert (Hhex : search re_hex s = None).
  { apply (search_from_none re_hex "#" match_at_hex_hash).
    apply Hno; reflexivity. }
  assert (Halpha : search re_alpha s = None).
  { apply (search_from_none re_alpha "l" match_at_alpha_l).
    apply Hno; reflexivity. }
  assert (Hrgb : search re_rgb s
                 = Some {| m_start := 0; m_text := s;
                           m_groups := [(3%nat, d3); (2%nat, d2); (1%nat, d1)];
                           m_rest := [] |}).
  { unfold search. unfold s at 1, rgb_text.
    cbn [app list_ascii_of_string search_from].
    change ("r"%char :: "g"%char :: "b"%char :: "("%char
            :: d1 ++ ","%char :: w1 ++ d2 ++ ","%char :: w2 ++ d3 ++ [")"%char])
      with s.
    unfold s at 1. rewrite (match_at_rgb_text d1 w1 d2 w2 d3) by assumption.
    cbn [List.length]. rewrite Nat.sub_0_r, firstn_all. reflexivity. }
  pose proof (digits_val_bounds d1 Hd1 0 ltac:(lia)) as Hp1.
  pose proof (digits_val_bounds d2 Hd2 0 ltac:(lia)) as Hp2.
  pose proof (digits_val_bounds d3 Hd3 0 ltac:(lia)) as Hp3.
  unfold try_match_color, match_hex, match_rgb. rewrite Hhex, Hrgb.
  cbn [bind is_falsy]. unfold group_str, group_val, group.
  cbn [m_groups lookup Nat.eqb].
  rewrite !py_int_digits by assumption. cbn [bind].
  unfold get_alpha_adjuster. rewrite Halpha. cbn [bind].
  unfold rgb_to_hex. cbn [truthy bind].
  rewrite !format_02x_byte by lia.
  unfold hex2. cbn [app is_falsy].
  unfold get_alpha_hex. cbn [List.length Nat.ltb Nat.leb bind].
  reflexivity.
Qed.

Lemma rgb_text_resolves_witness :
  try_match_color (rgb_text "18" " " "52" "" "255")
  = Ok ("#"%char :: hex2 (digits_val 0 "18") ++ hex2 (digits_val 0 "52")
                 ++ hex2 (digits_val 0 "255")).
Proof.
  apply (rgb_text_resolves "18" " " "52" "" "255");
    vm_compute; try reflexivity; discriminate.
Defined.

Lemma zero_byte_iff (c7 c8 : ascii) :
  zero_byte c7 c8 = true <-> [c7; c8] = ("00" : str).
Proof.
  unfold zero_byte, is_char. split.
  - intros H. apply andb_prop in H as [H7 H8].
    apply Ascii.eqb_eq in H7, H8. subst. reflexivity.
  - intros H. injection H as -> ->. reflexivity.
Qed.

(** X3. A canonical literal is returned unchanged by [try_match_color]
    exactly when it has no alpha digits or its alpha digits are [00]. *)
Theorem canonical_fixed_iff_no_alpha (s : str) :
  canonical s = true ->
  try_match_color s = Ok s
  <-> (List.length s = 7%nat \/ slice_from 7 s = ("00" : str)).
Proof.
  intros H. destruct s as [| c t]; [discriminate|]. cbn [canonical] in H.
  apply andb_prop in H as [H Hlen]. apply andb_prop in H as [Hc Hhex].
  apply Ascii.eqb_eq in Hc. subst c.
  apply orb_prop in Hlen as [Hlen | Hlen]; apply Nat.eqb_eq in Hlen.
  - do 7 (destruct t as [| ? t]; try discriminate).
    split; [intros _; left; reflexivity|]. intros _.
    apply try_match_color_six_digits. exact Hhex.
  - do 9 (destruct t as [| ? t]; try discriminate).
    rewrite (eight_digit_literal_fixed_iff_zero_alpha _ _ _ _ _ _ _ _ Hhex).
    rewrite zero_byte_iff. cbn [slice_from skipn List.length].
    split; [intros ->; right; reflexivity|].
    intros [Hl | Hs]; [discriminate | exact Hs].
Qed.

Lemma canonical_fixed_iff_no_alpha_witness :
  try_match_color "#1a2B3c00" = Ok ("#1a2B3c00" : str)
  <-> (List.length ("#1a2B3c00" : str) = 7%nat
       \/ slice_from 7 "#1a2B3c00" = ("00" : str)).
Proof. apply (canonical_fixed_iff_no_alpha "#1a2B3c00"). reflexivity. Defined.

Lemma hex2_canonical (n : Z) :
  0 <= n <= 255 -> forallb is_hex_digit (hex2 n) = true.
Proof.
  intros Hn.
  assert (H : forallb (fun k => forallb is_hex_digit (hex2 (Z.of_nat k)))
                (seq 0 256) = true) by (vm_compute; reflexivity).
  rewrite forallb_forall in H. specialize (H (Z.to_nat n)).
  rewrite Z2Nat.id in H by lia. apply H, in_seq. lia.
Qed.

(** X4. For channels between 0 and 255 and an alpha between 0 and 1,
    [rgb_to_hex] returns a canonical literal: nine characters when the alpha
    is truthy and seven otherwise, and its first seven characters are the
    result without an alpha. *)
Theorem rgb_to_hex_canonical (r g b : Z) (a : pyval) (f : float) :
  0 <= r <= 255 -> 0 <= g <= 255 -> 0 <= b <= 255 ->
  py_float a = Ok f ->
  valid f = true -> Float.leb zero f = true -> Float.leb f one = true ->
  exists s,
    rgb_to_hex r g b a = Ok s /\ canonical s = true
    /\ List.length s = (if truthy a then 9 else 7)%nat
    /\ rgb_to_hex r g b PyNone = Ok (slice_to 7 s).
Proof.
  intros Hr Hg Hb Hf Hv H0 H1. unfold rgb_to_hex.
  rewrite !format_02x_byte by assumption. cbn [truthy].
  pose proof (hex2_canonical r Hr) as Cr.
  pose proof (hex2_canonical g Hg) as Cg.
  pose proof (hex2_canonical b Hb) as Cb.
  unfold hex2 in *. cbn [forallb] in Cr, Cg, Cb.
  apply andb_prop in Cr as [Cr1 Cr2]. apply andb_prop in Cr2 as [Cr2 _].
  apply andb_prop in Cg as [Cg1 Cg2]. apply andb_prop in Cg2 as [Cg2 _].
  apply andb_prop in Cb as [Cb1 Cb2]. apply andb_prop in Cb2 as [Cb2 _].
  destruct (truthy a).
  - destruct (alpha_to_hex_byte f Hv H0 H1) as (n & _ & Hn & Hhex).
    unfold alpha_to_hex in *. rewrite Hf. cbn [py_float bind] in Hhex.
    cbn [bind]. rewrite Hhex. cbn [bind app].
    pose proof (hex2_canonical n Hn) as Cn. unfold hex2 in Cn.
    cbn [forallb] in Cn.
    apply andb_prop in Cn as [Cn1 Cn2]. apply andb_prop in Cn2 as [Cn2 _].
    eexists. split; [reflexivity|]. unfold canonical.
    rewrite Ascii.eqb_refl. cbn [forallb app List.length].
    rewrite Cr1, Cr2, Cg1, Cg2, Cb1, Cb2, Cn1, Cn2. repeat split.
  - eexists. split; [reflexivity|]. unfold canonical.
    rewrite Ascii.eqb_refl. cbn [forallb app List.length].
    rewrite Cr1, Cr2, Cg1, Cg2, Cb1, Cb2. repeat split.
Qed.

Lemma rgb_to_hex_canonical_witness :
  exists s,
    rgb_to_hex 255 0 17 (PyStr "0.25") = Ok s /\ canonical s = true
    /\ List.length s = (if truthy (PyStr "0.25") then 9 else 7)%nat
    /\ rgb_to_hex 255 0 17 PyNone = Ok (slice_to 7 s).
Proof.
  apply (rgb_to_hex_canonical 255 0 17 (PyStr "0.25") (ratio 25 100));
    try lia; vm_compute; reflexivity.
Defined.

(** [r{n}] over a class takes exactly [n] characters. *)
Lemma rmatch_rep_class {A : Type} (p : ascii -> bool)
    (k : str -> caps -> option A) (n : nat) :
  forall (s : str) (g : caps) (a : A),
    rmatch (Rep n (Class p)) s g k = Some a ->
    exists d rest, s = d ++ rest /\ List.length d = n /\ k rest g = Some a.
Proof.
  induction n as [| n IH]; intros s g a H.
  - exists [], s. repeat split. exact H.
  - cbn [Rep] in H. rewrite rmatch_cat, rmatch_class in H.
    destruct s as [| c s]; [discriminate|].
    destruct (p c); [|discriminate].
    destruct (IH s g a H) as (d & rest & -> & Hlen & Hk).
    exists (c :: d), rest. cbn. repeat split; [lia | exact Hk].
Qed.

Lemma match_at_hex_group (t s' : str) (g : caps) :
  match_at re_hex t = Some (s', g) ->
  exists g1, lookup 1 g = Some g1 /\ List.length g1 = 7%nat.
Proof.
  unfold match_at, re_hex. rewrite rmatch_cat, rmatch_group, rmatch_cat.
  destruct t as [| c t]; [discriminate|]. rewrite rmatch_chr.
  destruct (Ascii.eqb c "#"); [|discriminate]. intros H.
  apply rmatch_rep_class in H as (d & rest & -> & Hlen & H).
  change (c :: d ++ rest) with ((c :: d) ++ rest) in H.
  rewrite firstn_app_sub in H. cbn [rmatch] in H.
  match type of H with
  | match ?x with _ => _ end = _ => destruct x as [[u gu]|] eqn:Hopt
  end.
  - injection H as -> ->.
    apply rmatch_rep_class in Hopt as (d2 & rest2 & _ & _ & Hk).
    injection Hk as _ <-. exists (c :: d). cbn. split; [reflexivity | lia].
  - injection H as _ <-. exists (c :: d). cbn. split; [reflexivity | lia].
Qed.

Lemma search_from_hex_group (s : str) :
  forall (pos : nat) (m : pymatch),
    search_from re_hex pos s = Some m ->
    exists g1, group m 1 = Some g1 /\ List.length g1 = 7%nat.
Proof.
  induction s as [| c t IH]; intros pos m; cbn [search_from].
  - destruct (match_at re_hex []) as [[s' g]|] eqn:Hm; [|discriminate].
    intros H. injection H as <-. apply (match_at_hex_group _ _ _ Hm).
  - destruct (match_at re_hex (c :: t)) as [[s' g]|] eqn:Hm.
    + intros H. injection H as <-. apply (match_at_hex_group _ _ _ Hm).
    + apply IH.
Qed.

(** X5. In a text with a hexadecimal colour and an adjuster [alpha(a)],
    [a] in the unit interval and not zero, the result is the [#] and six
    digits of the colour followed by the two hexadecimal digits of a byte
    [b], whatever alpha digits the colour had; [b] is the floor of the exact
    product [255 * a] of the float [a], or the next integer when the exact
    product is within [2 ^ -46] of it. *)
Theorem adjuster_sets_alpha_byte (string : str) (m al : pymatch)
    (a : float) :
  search re_hex string = Some m ->
  search re_alpha string = Some al ->
  float_of_str (group_str al 1) = Ok a ->
  valid a = true -> Float.leb zero a = true -> Float.leb a one = true ->
  Float.eqb a zero = false ->
  exists b : Z,
    alpha_byte a b = true
    /\ 0 <= b <= 255
    /\ try_match_color string = Ok (group_str m 1 ++ hex2 b).
Proof.
  intros Hm Hal Hf Hv H0 H1 Hnz.
  destruct (search_from_hex_group string 0 m Hm) as (g1 & Hg1 & Hlen).
  destruct (nonzero_adjuster_overrides string g1 m al a Hm Hg1 Hlen Hal Hf
              Hv H0 H1 Hnz) as (b & Hbyte & Hb & Hres).
  exists b. unfold group_str. rewrite Hg1. auto.
Qed.

Lemma adjuster_sets_alpha_byte_witness :
  exists b : Z,
    alpha_byte (ratio 5 10) b = true
    /\ 0 <= b <= 255
    /\ try_match_color "color(#102030ff alpha(0.5))"
       = Ok (("#102030" : str) ++ hex2 b).
Proof.
  apply (adjuster_sets_alpha_byte "color(#102030ff alpha(0.5))"
           {| m_start := 6; m_text := "#102030ff";
              m_groups := [(2%nat, "ff" : str); (1%nat, "#102030" : str)];
              m_rest := " alpha(0.5))" |}
           {| m_start := 16; m_text := "alpha(0.5)";
              m_groups := [(1%nat, "0.5" : str); (2%nat, "0." : str)];
              m_rest := ")" |}
           (ratio 5 10)); vm_compute; reflexivity.
Defined.

(** ** Scans that copy *)

Lemma rewrite_scan_prefix (here : str -> option (nat * str))
    (p : ascii -> bool) (u rest : str) :
  (forall c t, p c = true -> here (c :: t) = None) ->
  forallb p u = true ->
  rewrite_scan here (u ++ rest) O = u ++ rewrite_scan here rest O.
Proof.
  intros Hnone Hu. induction u as [| c u IH]; [reflexivity|].
  cbn [forallb] in Hu. apply andb_prop in Hu as [Hc Hu].
  cbn [app rewrite_scan]. rewrite (Hnone c (u ++ rest) Hc), (IH Hu).
  reflexivity.
Qed.

Lemma rewrite_scan_copy (here : str -> option (nat * str))
    (p : ascii -> bool) (u : str) :
  (forall c t, p c = true -> here (c :: t) = None) ->
  forallb p u = true -> rewrite_scan here u O = u.
Proof.
  intros Hnone Hu. rewrite <- (app_nil_r u) at 1.
  rewrite (rewrite_scan_prefix here p u [] Hnone Hu). cbn.
  apply app_nil_r.
Qed.

Lemma rewrite_scan_skip (here : str -> option (nat * str)) (s : str) :
  forall k, (k <= List.length s)%nat ->
  rewrite_scan here s k = rewrite_scan here (skipn k s) O.
Proof.
  induction s as [| c t IH]; intros k Hk.
  - destruct k; [reflexivity | cbn in Hk; lia].
  - destruct k as [| k]; [reflexivity|].
    cbn [rewrite_scan skipn]. apply IH. cbn in Hk. lia.
Qed.

Lemma name_here_none (f : ascii -> bool) (c : ascii) (t : str) :
  is_char "_" c = false -> name_here f (c :: t) = None.
Proof.
  intros H. unfold name_here. destruct t; [reflexivity|]. rewrite H.
  reflexivity.
Qed.

Lemma sep_here_none (c : ascii) (t : str) :
  space c = false -> sep_here (c :: t) = None.
Proof.
  intros H. unfold sep_here. destruct t as [| b [| d t]]; try reflexivity.
  rewrite H. reflexivity.
Qed.

Lemma paren_here_none (c : ascii) (t : str) :
  space c = false -> is_paren c = false -> paren_here (c :: t) = None.
Proof.
  intros Hs Hp. unfold paren_here. cbn [drop_spaces]. rewrite Hs.
  unfold is_paren in Hp. rewrite Hp. reflexivity.
Qed.

Lemma plain_inv (c : ascii) :
  plain c = true ->
  space c = false /\ is_char "_" c = false /\ is_paren c = false.
Proof.
  unfold plain, is_paren. intros H. apply negb_true_iff in H.
  destruct (space c), (is_char "_" c), (is_char "(" c), (is_char ")" c);
    try discriminate; repeat split.
Qed.

(** X6. [convert_name] returns a name without underscore as it is. *)
Theorem convert_name_without_underscore (s : str) :
  has_char "_" s = false -> convert_name s = s.
Proof.
  intros H. rewrite convert_name_scan.
  apply (rewrite_scan_copy _ (fun c => negb (is_char "_" c))).
  - intros c t Hc. apply name_here_none. apply negb_true_iff. exact Hc.
  - unfold has_char in H. induction s as [| c s IH]; [reflexivity|].
    cbn in H. apply orb_false_elim in H as [Hc Hs]. cbn. rewrite Hc.
    apply IH. exact Hs.
Qed.

Lemma convert_name_without_underscore_witness :
  convert_name "lineHighlight" = ("lineHighlight" : str).
Proof. apply (convert_name_without_underscore "lineHighlight"). reflexivity. Defined.

Lemma parse_scope_scans (s : str) :
  parse_scope s
  = rewrite_scan paren_here
      (rewrite_scan sep_here (rewrite_scan (name_here alnum_comma) s O) O) O.
Proof.
  unfold parse_scope, Re.sub. rewrite convert_name_scan.
  rewrite (sub_scan_rewrite re_sep (fun _ => ", " : str) sep_here
             sep_here_spec).
  rewrite (sub_scan_rewrite re_paren (fun _ => " " : str) paren_here
             paren_here_spec).
  reflexivity.
Qed.

Lemma plain_scan_none :
  (forall c t, plain c = true -> name_here alnum_comma (c :: t) = None)
  /\ (forall c t, plain c = true -> sep_here (c :: t) = None)
  /\ (forall c t, plain c = true -> paren_here (c :: t) = None).
Proof.
  repeat split; intros c t Hc; destruct (plain_inv c Hc) as (Hs & Hu & Hp).
  - apply name_here_none. exact Hu.
  - apply sep_here_none. exact Hs.
  - apply paren_here_none; assumption.
Qed.

(** X7. [parse_scope] returns a scope without whitespace, underscore
    and parenthesis as it is. *)
Theorem parse_scope_plain (u : str) :
  forallb plain u = true -> parse_scope u = u.
Proof.
  intros Hu. destruct plain_scan_none as (Hn & Hs & Hp).
  rewrite parse_scope_scans.
  rewrite (rewrite_scan_copy _ plain u Hn Hu).
  rewrite (rewrite_scan_copy _ plain u Hs Hu).
  apply (rewrite_scan_copy _ plain u Hp Hu).
Qed.

Lemma parse_scope_plain_witness :
  parse_scope "string.quoted.double" = ("string.quoted.double" : str).
Proof. apply (parse_scope_plain "string.quoted.double"). reflexivity. Defined.

(** ** Scopes word by word *)

Lemma rewrite_scan_hit (here : str -> option (nat * str)) (s new : str)
    (k : nat) :
  here s = Some (S k, new) -> (S k <= List.length s)%nat ->
  rewrite_scan here s O = new ++ rewrite_scan here (skipn (S k) s) O.
Proof.
  intros H Hk. destruct s as [| c t]; [cbn in Hk; lia|].
  cbn [rewrite_scan skipn]. rewrite H.
  rewrite rewrite_scan_skip by (cbn in Hk; lia). reflexivity.
Qed.

Lemma space_not_sep (c : ascii) : space c = true -> is_sep c = false.
Proof.
  intros H. destruct (is_sep c) eqn:Hs; [|reflexivity].
  unfold is_sep, is_char in Hs. apply orb_prop in Hs as [Hs | Hs];
    apply Ascii.eqb_eq in Hs; subst c; discriminate.
Qed.

Lemma paren_not_space (c : ascii) : is_paren c = true -> space c = false.
Proof.
  intros H. unfold is_paren, is_char in H. apply orb_prop in H as [H | H];
    apply Ascii.eqb_eq in H; subst c; reflexivity.
Qed.

Lemma paren_not_sep (c : ascii) : is_paren c = true -> is_sep c = false.
Proof.
  intros H. unfold is_paren, is_char in H. apply orb_prop in H as [H | H];
    apply Ascii.eqb_eq in H; subst c; reflexivity.
Qed.

Lemma drop_spaces_app (w rest : str) :
  forallb space w = true -> drop_spaces (w ++ rest) = drop_spaces rest.
Proof.
  intros Hw. induction w as [| c w IH]; [reflexivity|].
  cbn in Hw. apply andb_prop in Hw as [Hc Hw]. cbn. rewrite Hc.
  apply IH. exact Hw.
Qed.

Lemma drop_spaces_plain (v : str) :
  forallb plain v = true -> drop_spaces v = v.
Proof.
  destruct v as [| c v]; [reflexivity|]. cbn [forallb]. intros H.
  apply andb_prop in H as [Hc _]. apply plain_inv in Hc as (Hs & _).
  cbn. rewrite Hs. reflexivity.
Qed.

Lemma no_underscore_copy (s : str) :
  has_char "_" s = false -> rewrite_scan (name_here alnum_comma) s O = s.
Proof.
  intros H. apply (rewrite_scan_copy _ (fun c => negb (is_char "_" c))).
  - intros c t Hc. apply name_here_none. apply negb_true_iff. exact Hc.
  - unfold has_char in H. induction s as [| c s IH]; [reflexivity|].
    cbn in H. apply orb_false_elim in H as [Hc Hs]. cbn. rewrite Hc.
    apply IH. exact Hs.
Qed.

Lemma plain_no_underscore (u : str) :
  forallb plain u = true -> has_char "_" u = false.
Proof.
  intros H. induction u as [| c u IH]; [reflexivity|].
  cbn in H. apply andb_prop in H as [Hc Hu]. unfold has_char. cbn.
  apply plain_inv in Hc as (_ & Hc & _). rewrite Hc. apply IH. exact Hu.
Qed.

Lemma paren_here_spaces_plain (w v : str) :
  forallb space w = true -> forallb plain v = true ->
  paren_here (w ++ v) = None.
Proof.
  intros Hw Hv. unfold paren_here.
  rewrite (drop_spaces_app w v Hw), (drop_spaces_plain v Hv).
  destruct v as [| c v]; [reflexivity|].
  cbn in Hv. apply andb_prop in Hv as [Hc _].
  apply plain_inv in Hc as (_ & _ & Hc). unfold is_paren in Hc.
  rewrite Hc. reflexivity.
Qed.

(** X8. Two selectors joined by [-] or [|] with one whitespace character
    on each side come out joined by a comma and a blank. *)
Theorem parse_scope_joins_alternatives (u v : str) (w1 op w2 : ascii) :
  forallb plain u = true -> forallb plain v = true ->
  space w1 = true -> is_sep op = true -> space w2 = true ->
  parse_scope (u ++ [w1; op; w2] ++ v) = u ++ ", " ++ v.
Proof.
  intros Hu Hv H1 Hop H2. destruct plain_scan_none as (_ & Hs & Hp).
  rewrite parse_scope_scans.
  rewrite no_underscore_copy.
  2:{ rewrite !has_char_app, (plain_no_underscore u Hu),
        (plain_no_underscore v Hv). unfold has_char. cbn [existsb].
      unfold is_char.
      destruct (Ascii.eqb w1 "_") eqn:E1;
        [apply Ascii.eqb_eq in E1; subst; discriminate|].
      destruct (Ascii.eqb w2 "_") eqn:E2;
        [apply Ascii.eqb_eq in E2; subst; discriminate|].
      destruct (Ascii.eqb op "_") eqn:E3;
        [apply Ascii.eqb_eq in E3; subst; discriminate|].
      reflexivity. }
  rewrite (rewrite_scan_prefix sep_here plain u _ Hs Hu).
  rewrite (rewrite_scan_hit sep_here _ ", " 2).
  2:{ cbn [app sep_here]. unfold is_sep in Hop. rewrite H1, Hop, H2.
      reflexivity. }
  2:{ cbn. lia. }
  cbn [app skipn]. rewrite (rewrite_scan_copy sep_here plain v Hs Hv).
  rewrite (rewrite_scan_prefix paren_here plain u _ Hp Hu).
  f_equal. cbn [app list_ascii_of_string rewrite_scan].
  rewrite paren_here_none by reflexivity.
  change (" "%char :: v) with ([" "%char] ++ v).
  rewrite (paren_here_spaces_plain [" "%char] v eq_refl Hv).
  cbn [app]. rewrite (rewrite_scan_copy paren_here plain v Hp Hv).
  reflexivity.
Qed.

Lemma parse_scope_joins_alternatives_witness :
  parse_scope "string - comment" = ("string, comment" : str).
Proof.
  apply (parse_scope_joins_alternatives "string" "comment" " " "-" " ");
    reflexivity.
Defined.

Lemma sep_scan_spaces (w rest : str) :
  forallb space w = true ->
  (forall a, sep_here (a :: rest) = None) ->
  rewrite_scan sep_here (w ++ rest) O = w ++ rewrite_scan sep_here rest O.
Proof.
  intros Hw Hrest. induction w as [| a w IH]; [reflexivity|].
  cbn [forallb] in Hw. apply andb_prop in Hw as [Ha Hw].
  cbn [app rewrite_scan].
  replace (sep_here (a :: w ++ rest)) with (@None (nat * str)).
  - rewrite (IH Hw). reflexivity.
  - symmetry. destruct w as [| b w]; [apply Hrest|].
    cbn [forallb] in Hw. apply andb_prop in Hw as [Hb _].
    apply space_not_sep in Hb. unfold is_sep in Hb.
    cbn [app]. unfold sep_here. destruct (w ++ rest); [reflexivity|].
    rewrite Hb, andb_false_r. reflexivity.
Qed.

Lemma sep_here_before_plain (a : ascii) (v : str) :
  forallb plain v = true -> sep_here (a :: v) = None.
Proof.
  intros Hv. unfold sep_here. destruct v as [| b [| c v]]; try reflexivity.
  cbn [forallb] in Hv. apply andb_prop in Hv as [_ Hv].
  apply andb_prop in Hv as [Hc _]. apply plain_inv in Hc as (Hc & _).
  rewrite Hc, andb_false_r. reflexivity.
Qed.

Lemma sep_here_before_paren (a par : ascii) (t : str) :
  is_paren par = true -> sep_here (a :: par :: t) = None.
Proof.
  intros Hp. apply paren_not_sep in Hp. unfold is_sep in Hp.
  unfold sep_here. destruct t; [reflexivity|].
  rewrite Hp, andb_false_r. reflexivity.
Qed.

Lemma spaces_no_underscore (w : str) :
  forallb space w = true -> has_char "_" w = false.
Proof. intros H. apply (has_char_class space); [exact H | reflexivity]. Qed.

(** X9. A parenthesis between two selectors, with any whitespace around
    it, comes out as one blank; the second selector may be empty, which
    leaves a blank at the end. *)
Theorem parse_scope_drops_parenthesis (u v w1 w2 : str) (par : ascii) :
  forallb plain u = true -> forallb plain v = true ->
  forallb space w1 = true -> forallb space w2 = true ->
  is_paren par = true ->
  parse_scope (u ++ w1 ++ [par] ++ w2 ++ v) = u ++ " " ++ v.
Proof.
  intros Hu Hv H1 H2 Hpar. destruct plain_scan_none as (_ & Hs & Hp).
  rewrite parse_scope_scans.
  rewrite no_underscore_copy.
  2:{ rewrite !has_char_app, (plain_no_underscore u Hu),
        (plain_no_underscore v Hv), (spaces_no_underscore w1 H1),
        (spaces_no_underscore w2 H2).
      unfold has_char, is_char. cbn [existsb].
      destruct (Ascii.eqb par "_") eqn:E;
        [apply Ascii.eqb_eq in E; subst; discriminate | reflexivity]. }
  rewrite (rewrite_scan_prefix sep_here plain u _ Hs Hu).
  rewrite (sep_scan_spaces w1 _ H1)
    by (intros a; apply sep_here_before_paren; exact Hpar).
  cbn [app rewrite_scan].
  rewrite (sep_here_none par) by (apply paren_not_space; exact Hpar).
  rewrite (sep_scan_spaces w2 v H2)
    by (intros a; apply sep_here_before_plain; exact Hv).
  rewrite (rewrite_scan_copy sep_here plain v Hs Hv).
  rewrite (rewrite_scan_prefix paren_here plain u _ Hp Hu).
  f_equal.
  rewrite (rewrite_scan_hit paren_here _ " "
             (List.length w1 + List.length w2)).
  - replace (skipn (S (List.length w1 + List.length w2))
               (w1 ++ par :: w2 ++ v)) with v.
    + rewrite (rewrite_scan_copy paren_here plain v Hp Hv). reflexivity.
    + replace (w1 ++ par :: w2 ++ v) with ((w1 ++ par :: w2) ++ v)
        by (rewrite <- app_assoc; reflexivity).
      rewrite skipn_app, skipn_all2 by (rewrite length_app; cbn; lia).
      rewrite length_app. cbn [List.length].
      replace (S (List.length w1 + List.length w2)
               - (List.length w1 + S (List.length w2)))%nat with O by lia.
      reflexivity.
  - unfold paren_here. rewrite (drop_spaces_app w1 _ H1).
    cbn [drop_spaces]. rewrite (paren_not_space par Hpar).
    unfold is_paren in Hpar. rewrite Hpar.
    rewrite (drop_spaces_app w2 v H2), (drop_spaces_plain v Hv).
    do 2 f_equal. rewrite !length_app. cbn [List.length].
    rewrite length_app. lia.
  - rewrite !length_app. cbn [List.length]. rewrite length_app. lia.
Qed.

Lemma parse_scope_drops_parenthesis_witness :
  parse_scope "source.js  ( meta.block" = ("source.js meta.block" : str).
Proof.
  apply (parse_scope_drops_parenthesis "source.js" "meta.block" "  " " " "(");
    reflexivity.
Defined.

Lemma paren_here_some (s : str) (n : nat) (new : str) :
  paren_here s = Some (n, new) -> new = (" " : str) /\ (0 < n)%nat.
Proof.
  unfold paren_here. pose proof (drop_spaces_length s) as Hs.
  destruct (drop_spaces s) as [| p r]; [discriminate|].
  pose proof (drop_spaces_length r) as Hr.
  destruct (is_char "(" p || is_char ")" p); [|discriminate].
  intros H. injection H as <- <-. cbn [List.length] in Hs.
  split; [reflexivity | lia].
Qed.

Lemma paren_here_head (c : ascii) (t : str) :
  paren_here (c :: t) = None -> is_paren c = false.
Proof.
  intros H. destruct (is_paren c) eqn:Hc; [|reflexivity].
  unfold paren_here in H. cbn [drop_spaces] in H.
  rewrite (paren_not_space c Hc) in H. unfold is_paren in Hc.
  rewrite Hc in H. discriminate.
Qed.

Lemma paren_scan_no_paren (s : str) :
  forall skip, forallb (fun c => negb (is_paren c))
                 (rewrite_scan paren_here s skip) = true.
Proof.
  induction s as [| c t IH]; intros skip; [reflexivity|].
  cbn [rewrite_scan]. destruct skip as [| k]; [|apply IH].
  destruct (paren_here (c :: t)) as [[n new]|] eqn:H.
  - destruct (paren_here_some _ _ _ H) as [-> Hn].
    destruct n as [| k]; [lia|]. cbn [app list_ascii_of_string forallb].
    rewrite IH. reflexivity.
  - cbn [forallb]. rewrite (paren_here_head c t H), IH. reflexivity.
Qed.

(** X10. The result of [parse_scope] never contains a parenthesis. *)
Theorem parse_scope_without_parentheses (s : str) :
  has_char "(" (parse_scope s) = false
  /\ has_char ")" (parse_scope s) = false.
Proof.
  rewrite parse_scope_scans.
  pose proof (paren_scan_no_paren
                (rewrite_scan sep_here
                   (rewrite_scan (name_here alnum_comma) s O) O) O) as H.
  revert H. generalize (rewrite_scan paren_here
                (rewrite_scan sep_here
                   (rewrite_scan (name_here alnum_comma) s O) O) O).
  intros l H. unfold has_char.
  induction l as [| c l IH]; [split; reflexivity|].
  cbn [forallb] in H. apply andb_prop in H as [Hc Hl].
  destruct (IH Hl) as [I1 I2]. cbn [existsb]. rewrite I1, I2.
  apply negb_true_iff in Hc. unfold is_paren in Hc.
  apply orb_false_elim in Hc as [-> ->]. split; reflexivity.
Qed.

(** ** References to variables *)

Lemma plus_class {A : Type} (p : ascii -> bool)
    (k : str -> caps -> option A) (d rest : str) (g : caps) (a : A) :
  forallb p d = true -> d <> [] -> drop_class p rest = rest ->
  k rest g = Some a ->
  rmatch (Plus (Class p)) (d ++ rest) g k = Some a.
Proof.
  intros Hd Hne Hr Hk. unfold Plus.
  rewrite rmatch_cat. destruct d as [| c d]; [contradiction|].
  cbn in Hd. apply andb_prop in Hd as [Hc Hd].
  cbn [app]. rewrite rmatch_class, Hc, rmatch_star.
  apply star_class_greedy; [lia|].
  rewrite (drop_class_app p d rest Hd Hr). exact Hk.
Qed.

Lemma not_rparen_spec (c : ascii) : not_rparen c = negb (is_char ")" c).
Proof. destruct c as [[] [] [] [] [] [] [] []]; reflexivity. Qed.

Lemma no_rparen_class (name : str) :
  has_char ")" name = false -> forallb not_rparen name = true.
Proof.
  unfold has_char. induction name as [| c t IH]; [reflexivity|].
  cbn. intros H. apply orb_false_elim in H as [Hc Ht].
  rewrite not_rparen_spec, Hc, (IH Ht). reflexivity.
Qed.

Lemma match_at_reference (name post : str) :
  name <> [] -> has_char ")" name = false ->
  match_at re_var (reference name ++ post) = Some (post, []).
Proof.
  intros Hne Hn. unfold match_at, re_var, reference.
  rewrite <- !app_assoc. rewrite rmatch_cat, rmatch_lit_app, rmatch_cat.
  apply plus_class;
    [apply no_rparen_class; exact Hn | exact Hne | reflexivity |].
  cbn [app list_ascii_of_string]. rewrite rmatch_chr. reflexivity.
Qed.

Lemma search_from_some (r : regex) (t : str) (x : str * caps) :
  match_at r t = Some x ->
  forall (pre : str) (pos : nat),
    exists m, search_from r pos (pre ++ t) = Some m.
Proof.
  intros Hm. induction pre as [| c pre IH]; intros pos.
  - cbn [app]. destruct t; cbn [search_from]; rewrite Hm; destruct x;
      eexists; reflexivity.
  - cbn [app search_from].
    destruct (match_at r (c :: pre ++ t)) as [[s' g]|];
      [eexists; reflexivity | apply IH].
Qed.

Lemma search_from_skip (r : regex) (p : ascii -> bool) (pre t : str) :
  (forall c u, p c = true -> match_at r (c :: u) = None) ->
  forallb p pre = true ->
  forall pos,
    search_from r pos (pre ++ t) = search_from r (List.length pre + pos) t.
Proof.
  intros Hr. induction pre as [| c pre IH]; intros Hp pos; [reflexivity|].
  cbn [forallb] in Hp. apply andb_prop in Hp as [Hc Hp].
  cbn [app search_from]. rewrite (Hr c _ Hc), (IH Hp).
  cbn [List.length]. f_equal. lia.
Qed.

Lemma match_at_var_v (c : ascii) (u : str) :
  negb (is_char "v" c) = true -> match_at re_var (c :: u) = None.
Proof.
  intros H. apply negb_true_iff in H. unfold is_char in H.
  unfold match_at, re_var. rewrite rmatch_cat. cbn [Lit list_ascii_of_string].
  rewrite rmatch_cat, rmatch_chr, H. reflexivity.
Qed.

Lemma has_char_forallb (x : ascii) (s : str) :
  has_char x s = false -> forallb (fun c => negb (is_char x c)) s = true.
Proof.
  unfold has_char. induction s as [| c s IH]; [reflexivity|].
  cbn. intros H. apply orb_false_elim in H as [Hc Hs].
  rewrite Hc, (IH Hs). reflexivity.
Qed.

Lemma search_reference (pre name post : str) :
  has_char "v" pre = false -> name <> [] -> has_char ")" name = false ->
  exists m, search re_var (pre ++ reference name ++ post) = Some m
            /\ m_text m = reference name.
Proof.
  intros Hpre Hne Hn. unfold search.
  rewrite (search_from_skip re_var _ pre _ match_at_var_v
             (has_char_forallb _ _ Hpre)).
  pose proof (match_at_reference name post Hne Hn) as Hm.
  remember (reference name ++ post) as t eqn:Ht.
  assert (Hf : firstn (List.length t - List.length post) t = reference name)
    by (subst t; apply firstn_app_sub).
  destruct t; cbn [search_from]; rewrite Hm; eexists;
    (split; [reflexivity | exact Hf]).
Qed.

Lemma starts_with_self (old s : str) : starts_with old (old ++ s) = true.
Proof.
  induction old as [| c old IH]; [destruct s; reflexivity|].
  cbn. rewrite Ascii.eqb_refl. exact IH.
Qed.

Lemma replace_scan_prefix (x : ascii) (old' new pre rest : str) :
  has_char x pre = false ->
  replace_scan (x :: old') new (pre ++ rest) O
  = pre ++ replace_scan (x :: old') new rest O.
Proof.
  unfold has_char. induction pre as [| c pre IH]; [reflexivity|].
  cbn [existsb]. intros H. apply orb_false_elim in H as [Hc Hp].
  cbn [app replace_scan starts_with]. unfold is_char in Hc.
  rewrite Ascii.eqb_sym, Hc. cbn [andb]. rewrite (IH Hp). reflexivity.
Qed.

Lemma str_replace_once (x : ascii) (old' new pre post : str) :
  has_char x pre = false -> has_char x post = false ->
  str_replace (pre ++ (x :: old') ++ post) (x :: old') new
  = pre ++ new ++ post.
Proof.
  intros Hpre Hpost. unfold str_replace.
  rewrite (replace_scan_prefix x old' new pre _ Hpre). f_equal.
  pose proof (starts_with_self (x :: old') post) as Hs.
  cbn [app] in *. cbn [replace_scan]. rewrite Hs. f_equal.
  cbn [List.length Nat.pred].
  rewrite replace_scan_skip by (rewrite length_app; lia).
  rewrite skipn_app, skipn_all, Nat.sub_diag. cbn [skipn app].
  rewrite <- (app_nil_r post) at 1.
  rewrite (replace_scan_prefix x old' new post [] Hpost). cbn.
  apply app_nil_r.
Qed.

(** X11. With a table, a value that holds one reference [var(name)], and
    no letter [v] outside it, resolves as the value with the reference
    replaced by the entry of the table for it, or as the value itself when
    the table has no such entry. *)
Theorem parse_color_substitutes_reference (pre name post : str)
    (table : dict str) :
  has_char "v" pre = false -> has_char "v" post = false ->
  name <> [] -> has_char ")" name = false ->
  dict_get (pre ++ reference name ++ post) table = None ->
  parse_color (pre ++ reference name ++ post) (Some table)
  = try_match_color
      (pre ++ match dict_get (reference name) table with
              | Some v => v
              | None => reference name
              end ++ post).
Proof.
  intros Hpre Hpost Hne Hn Hk.
  destruct (search_reference pre name post Hpre Hne Hn) as (m & Hm & Ht).
  unfold parse_color.
  replace (match table with
           | [] => None
           | _ :: _ => dict_get (pre ++ reference name ++ post) table
           end)
    with (@None str) by (destruct table; [reflexivity | symmetry; exact Hk]).
  rewrite Hm, Ht. f_equal. apply (str_replace_once "v"); assumption.
Qed.

Lemma parse_color_substitutes_reference_witness :
  parse_color ("color(" ++ reference "blue" ++ " alpha(0.5))")
    (Some [(reference "blue", "#102030" : str)])
  = try_match_color
      ("color(" ++ match dict_get (reference "blue")
                          [(reference "blue", "#102030" : str)] with
                   | Some v => v
                   | None => reference "blue"
                   end ++ " alpha(0.5))").
Proof.
  apply (parse_color_substitutes_reference "color(" "blue" " alpha(0.5))"
           [(reference "blue", "#102030" : str)]);
    try reflexivity. discriminate.
Defined.

(** X12. Without a table, every value that contains a reference
    [var(name)] makes [parse_color] raise [AttributeError], whatever stands
    around the reference. *)
Theorem parse_color_reference_needs_table (pre name post : str) :
  name <> [] -> has_char ")" name = false ->
  parse_color (pre ++ reference name ++ post) None = Raise AttributeError.
Proof.
  intros Hne Hn.
  destruct (search_from_some re_var _ _ (match_at_reference name post Hne Hn)
              pre O) as [m Hm].
  unfold parse_color, search. rewrite Hm. reflexivity.
Qed.

Lemma parse_color_reference_needs_table_witness :
  parse_color ("color(" ++ reference "blue" ++ " alpha(0.5))") None
  = Raise AttributeError.
Proof.
  apply (parse_color_reference_needs_table "color(" "blue" " alpha(0.5))");
    [discriminate | reflexivity].
Defined.

(** ** Dictionaries *)

Lemma existsb_str_eqb (k : str) (l : list str) :
  existsb (str_eqb k) l = false <-> ~ In k l.
Proof.
  split.
  - intros H Hin. assert (existsb (str_eqb k) l = true); [|congruence].
    apply existsb_exists. exists k. split; [exact Hin | apply str_eqb_refl].
  - intros H. destruct (existsb (str_eqb k) l) eqn:E; [|reflexivity].
    apply existsb_exists in E as (x & Hin & Hx).
    apply str_eqb_eq in Hx. subst x. contradiction.
Qed.

Lemma distinct_NoDup (l : list str) : distinct l = true <-> NoDup l.
Proof.
  induction l as [| k t IH]; cbn [distinct].
  - split; [constructor | reflexivity].
  - rewrite andb_true_iff, negb_true_iff, existsb_str_eqb, IH.
    split; [intros [H1 H2]; constructor; assumption
           | intros H; inversion H; split; assumption].
Qed.

Lemma dict_set_absent {V : Type} (k : str) (v : V) (d : dict V) :
  ~ In k (dict_keys d) -> dict_set k v d = d ++ [(k, v)].
Proof.
  induction d as [| [k' v'] d IH]; intros H; [reflexivity|].
  cbn [dict_set]. destruct (str_eqb k k') eqn:E.
  - apply str_eqb_eq in E. subst k'. contradiction H. left. reflexivity.
  - cbn [app]. f_equal. apply IH. intros Hin. apply H. right. exact Hin.
Qed.

Lemma dict_get_remove_other {V : Type} (k k' : str) (d : dict V) :
  str_eqb k k' = false -> dict_get k (dict_remove k' d) = dict_get k d.
Proof.
  intros Hk. induction d as [| [k2 v2] d IH]; [reflexivity|].
  cbn [dict_remove dict_get]. destruct (str_eqb k' k2) eqn:E.
  - apply str_eqb_eq in E. subst k2. rewrite Hk. reflexivity.
  - cbn [dict_get]. rewrite IH. reflexivity.
Qed.

Lemma reference_inj (a b : str) : reference a = reference b -> a = b.
Proof.
  unfold reference. intros H. apply app_inv_head in H.
  apply app_inv_tail in H. exact H.
Qed.

Lemma dict_keys_app {V : Type} (a b : dict V) :
  dict_keys (a ++ b) = dict_keys a ++ dict_keys b.
Proof. apply map_app. Qed.

Lemma wrap_variables_loop (d : dict str) :
  forall w : dict str,
    NoDup (dict_keys d) ->
    (forall k, In k (dict_keys d) ->
               ~ In (reference k) (dict_keys d ++ dict_keys w)) ->
    wrap_variables (dict_keys d) (d ++ w) = Ok (w ++ wrapped d).
Proof.
  induction d as [| [k v] d IH]; intros w Hnd Hw.
  - cbn. rewrite app_nil_r. reflexivity.
  - change (dict_keys ((k, v) :: d)) with (k :: dict_keys d) in *.
    inversion Hnd as [| ? ? Hk Hd]; subst.
    cbn [wrap_variables app]. unfold dict_pop.
    cbn [dict_get dict_remove]. rewrite str_eqb_refl.
    rewrite dict_set_absent.
    2:{ rewrite dict_keys_app. intros Hin.
        apply (Hw k (or_introl eq_refl)). right. exact Hin. }
    rewrite <- app_assoc. rewrite IH.
    + cbn [wrapped map fst snd]. rewrite <- app_assoc. reflexivity.
    + exact Hd.
    + intros k2 Hk2 Hin. rewrite dict_keys_app, app_assoc in Hin.
      apply in_app_or in Hin as [Hin | Hin].
      * apply (Hw k2 (or_intror Hk2)). right. exact Hin.
      * cbn in Hin. destruct Hin as [Heq | []].
        apply reference_inj in Heq. subst k2. contradiction.
Qed.

Lemma wrap_variables_wrapped (d : dict str) :
  distinct (dict_keys d) = true ->
  no_reference_key (dict_keys d) = true ->
  wrap_variables (dict_keys d) d = Ok (wrapped d).
Proof.
  intros Hd Hr. pose proof (wrap_variables_loop d []) as H.
  cbn [dict_keys map app] in H. rewrite !app_nil_r in H.
  apply H; [apply distinct_NoDup, Hd|]. intros k Hk.
  unfold no_reference_key in Hr. rewrite forallb_forall in Hr.
  specialize (Hr k Hk). apply negb_true_iff in Hr.
  apply existsb_str_eqb. exact Hr.
Qed.

Lemma dict_get_wrapped (k : str) (d : dict str) :
  dict_get (reference k) (wrapped d) = dict_get k d.
Proof.
  induction d as [| [k' v] d IH]; [reflexivity|].
  cbn [wrapped map fst snd dict_get]. fold (wrapped d). rewrite IH.
  destruct (str_eqb k k') eqn:E.
  - apply str_eqb_eq in E. subst k'. rewrite str_eqb_refl. reflexivity.
  - destruct (str_eqb (reference k) (reference k')) eqn:E2; [|reflexivity].
    apply str_eqb_eq, reference_inj in E2. subst k'.
    rewrite str_eqb_refl in E. discriminate.
Qed.

(** X13. When the declared names are distinct and none of them is the
    reference text of one of them, the loop of [parse] over the variables
    returns a table, and against that table a value that is exactly the
    reference to a declared name resolves as the expression declared for
    that name. *)
Theorem declared_reference_resolves (k v : str) (d : dict str) :
  distinct (dict_keys d) = true ->
  no_reference_key (dict_keys d) = true ->
  dict_get k d = Some v ->
  exists table : dict str,
    wrap_variables (dict_keys d) d = Ok table
    /\ parse_color (reference k) (Some table) = try_match_color v.
Proof.
  intros Hd Hr H. exists (wrapped d).
  split; [apply wrap_variables_wrapped; assumption|].
  apply parse_color_declared. rewrite dict_get_wrapped. exact H.
Qed.

Lemma declared_reference_resolves_witness :
  exists table : dict str,
    wrap_variables (dict_keys [("blue" : str, "rgb(16, 32, 48)" : str)])
      [("blue" : str, "rgb(16, 32, 48)" : str)] = Ok table
    /\ parse_color (reference "blue") (Some table)
       = try_match_color "rgb(16, 32, 48)".
Proof.
  apply (declared_reference_resolves "blue" "rgb(16, 32, 48)"
           [("blue" : str, "rgb(16, 32, 48)" : str)]); reflexivity.
Defined.

(** ** Settings *)

Lemma parse_settings_loop_in_order (variables : option (dict str))
    (items : dict str) :
  forall parsed : dict str,
    NoDup (dict_keys parsed ++ map convert_name (dict_keys items)) ->
    parse_settings_loop items variables parsed
    = (cs <- resolve_all (map snd items) variables ;;
       Ok (parsed ++ combine (map convert_name (dict_keys items)) cs)).
Proof.
  induction items as [| [k v] items IH]; intros parsed Hnd.
  - cbn. rewrite app_nil_r. reflexivity.
  - cbn [parse_settings_loop resolve_all map snd fst dict_keys] in *.
    destruct (parse_color v variables) as [c | e]; [|reflexivity].
    cbn [bind]. rewrite dict_set_absent.
    2:{ apply NoDup_remove_2 in Hnd. intros Hin. apply Hnd.
        apply in_or_app. left. exact Hin. }
    fold (dict_keys items). rewrite IH.
    + destruct (resolve_all (map snd items) variables) as [cs | e];
        [|reflexivity].
      cbn [bind combine]. rewrite <- app_assoc. reflexivity.
    + rewrite dict_keys_app. cbn [dict_keys map fst app].
      rewrite <- app_assoc. exact Hnd.
Qed.

(** X14. When the normalized keys of the settings are distinct,
    [parse_settings] resolves the values in the order of the source and
    returns the normalized keys, in that order, each with its resolved
    value; the first value whose resolution raises makes it raise the
    same. *)
Theorem parse_settings_in_order (settings : dict str)
    (variables : option (dict str)) :
  distinct (map convert_name (dict_keys settings)) = true ->
  parse_settings settings variables
  = (cs <- resolve_all (map snd settings) variables ;;
     Ok (combine (map convert_name (dict_keys settings)) cs)).
Proof.
  intros H. unfold parse_settings.
  apply (parse_settings_loop_in_order variables settings []).
  apply distinct_NoDup. exact H.
Qed.

Lemma parse_settings_in_order_witness :
  parse_settings [("line_highlight" : str, "#10203040" : str);
                  ("font_style" : str, "bold" : str)] None
  = (cs <- resolve_all
             (map snd [("line_highlight" : str, "#10203040" : str);
                       ("font_style" : str, "bold" : str)]) None ;;
     Ok (combine
           (map convert_name
              (dict_keys [("line_highlight" : str, "#10203040" : str);
                          ("font_style" : str, "bold" : str)])) cs)).
Proof.
  apply (parse_settings_in_order
           [("line_highlight" : str, "#10203040" : str);
            ("font_style" : str, "bold" : str)] None). reflexivity.
Defined.

(** ** The theme *)

Lemma parse_rules_shape (variables : option (dict str))
    (rules : list (dict str)) :
  forall rs : list rule,
    parse_rules rules variables = Ok rs ->
    map rule_name rs = map (fun r => nonempty (dict_get "name" r)) rules
    /\ map rule_scope rs
       = map (fun r => option_map parse_scope (nonempty (dict_get "scope" r)))
           rules.
Proof.
  induction rules as [| r rules IH]; intros rs H.
  - injection H as <-. split; reflexivity.
  - cbn [parse_rules] in H. unfold dict_pop in H.
    destruct (parse_settings _ variables) as [p | e]; [|discriminate].
    cbn [bind] in H.
    destruct (parse_rules rules variables) as [rest | e]; [|discriminate].
    cbn [bind] in H. injection H as <-.
    destruct (IH rest eq_refl) as [Hn Hs].
    cbn [map rule_name rule_scope]. rewrite Hn, Hs.
    rewrite dict_get_remove_other by reflexivity. split; reflexivity.
Qed.

(** X15. A theme returned by [parse] has the name and the author of the
    source, or [undefined]; its first rule has neither name nor scope, and
    after it comes one rule for each rule of the source, in order, with the
    name of the source rule when it is not empty and its scope normalized
    by [parse_scope]. *)
Theorem parse_theme_shape (src : source) (rules : list (dict str))
    (th : theme) :
  src_rules src = Some rules ->
  parse src = Ok th ->
  theme_name th = or_undefined (src_name src)
  /\ theme_author th = or_undefined (src_author src)
  /\ map rule_name (theme_settings th)
     = None :: map (fun r => nonempty (dict_get "name" r)) rules
  /\ map rule_scope (theme_settings th)
     = None :: map (fun r =>
                     option_map parse_scope (nonempty (dict_get "scope" r)))
                 rules.
Proof.
  intros Hr H. unfold parse in H. rewrite Hr in H.
  destruct (required "globals" (src_globals src)) as [g | e]; [|discriminate].
  cbn [bind required] in H.
  match type of H with
  | bind ?x _ = _ => destruct x as [vars | e]; [|discriminate]
  end.
  cbn [bind] in H.
  destruct (parse_settings g vars) as [st | e]; [|discriminate].
  cbn [bind] in H.
  destruct (parse_rules rules vars) as [rs | e] eqn:Hrs; [|discriminate].
  cbn [bind] in H. injection H as <-.
  destruct (parse_rules_shape vars rules rs Hrs) as [Hn Hs].
  cbn [theme_name theme_author theme_settings map rule_name rule_scope].
  rewrite Hn, Hs. repeat split.
Qed.

Lemma parse_theme_shape_witness :
  theme_name theme_example = or_undefined (src_name doc_example)
  /\ theme_author theme_example = or_undefined (src_author doc_example)
  /\ map rule_name (theme_settings theme_example)
     = None :: map (fun r => nonempty (dict_get "name" r))
                 [[("name" : str, "Comment" : str);
                   ("scope" : str, "comment" : str);
                   ("foreground" : str, "#888888" : str)]]
  /\ map rule_scope (theme_settings theme_example)
     = None :: map (fun r =>
                     option_map parse_scope (nonempty (dict_get "scope" r)))
                 [[("name" : str, "Comment" : str);
                   ("scope" : str, "comment" : str);
                   ("foreground" : str, "#888888" : str)]].
Proof.
  apply (parse_theme_shape doc_example
           [[("name" : str, "Comment" : str);
             ("scope" : str, "comment" : str);
             ("foreground" : str, "#888888" : str)]] theme_example);
    vm_compute; reflexivity.
Defined.

(** ** Hexadecimal colours inside a text *)

Lemma rmatch_rep_class_app {A : Type} (p : ascii -> bool)
    (k : str -> caps -> option A) (d rest : str) (g : caps) :
  forallb p d = true ->
  rmatch (Rep (List.length d) (Class p)) (d ++ rest) g k = k rest g.
Proof.
  intros Hd. induction d as [| c d IH]; [reflexivity|].
  cbn [forallb] in Hd. apply andb_prop in Hd as [Hc Hd].
  cbn [List.length Rep app]. rewrite rmatch_cat, rmatch_class, Hc.
  apply IH. exact Hd.
Qed.

Lemma rmatch_two_none {A : Type} (p : ascii -> bool)
    (k : str -> caps -> option A) (s : str) (g : caps) :
  two_of p s = false -> rmatch (Rep 2 (Class p)) s g k = None.
Proof.
  intros H. cbn [Rep]. rewrite rmatch_cat.
  destruct s as [| a [| b s]]; cbn [rmatch]; try reflexivity.
  - destruct (p a); reflexivity.
  - cbn [two_of] in H. destruct (p a); [|reflexivity].
    cbn [andb] in H. rewrite H. reflexivity.
Qed.

Lemma match_at_hex_six (six post : str) :
  List.length six = 6%nat -> forallb alnum_comma six = true ->
  two_of alnum_comma post = false ->
  match_at re_hex ("#"%char :: six ++ post)
  = Some (post, [(1%nat, "#"%char :: six)]).
Proof.
  intros Hlen Hsix Hpost. unfold match_at, re_hex.
  rewrite rmatch_cat, rmatch_group, rmatch_cat, rmatch_chr.
  cbn [Ascii.eqb Bool.eqb]. rewrite <- Hlen.
  rewrite (rmatch_rep_class_app alnum_comma _ six post _ Hsix).
  change ("#"%char :: six ++ post) with (("#"%char :: six) ++ post).
  rewrite firstn_app_sub.
  rewrite rmatch_opt_none; [reflexivity|].
  rewrite rmatch_group. apply rmatch_two_none. exact Hpost.
Qed.

Lemma match_at_hex_eight (six post : str) (c7 c8 : ascii) :
  List.length six = 6%nat -> forallb alnum_comma six = true ->
  alnum_comma c7 = true -> alnum_comma c8 = true ->
  match_at re_hex ("#"%char :: six ++ c7 :: c8 :: post)
  = Some (post, [(2%nat, [c7; c8]); (1%nat, "#"%char :: six)]).
Proof.
  intros Hlen Hsix H7 H8. unfold match_at, re_hex.
  rewrite rmatch_cat, rmatch_group, rmatch_cat, rmatch_chr.
  cbn [Ascii.eqb Bool.eqb]. rewrite <- Hlen.
  rewrite (rmatch_rep_class_app alnum_comma _ six _ _ Hsix).
  change ("#"%char :: six ++ c7 :: c8 :: post)
    with (("#"%char :: six) ++ c7 :: c8 :: post).
  rewrite firstn_app_sub.
  cbn [rmatch Rep]. rewrite H7, H8. cbn [List.length].
  replace (S (S (List.length post)) - List.length post)%nat with 2%nat by lia.
  reflexivity.
Qed.

Lemma match_at_hex_c (c : ascii) (u : str) :
  negb (is_char "#" c) = true -> match_at re_hex (c :: u) = None.
Proof.
  intros H. apply negb_true_iff in H. unfold is_char in H.
  unfold match_at, re_hex.
  rewrite rmatch_cat, rmatch_group, rmatch_cat, rmatch_chr, H. reflexivity.
Qed.

Lemma search_hex_in_text (pre t rest : str) (g : caps) :
  has_char "#" pre = false ->
  match_at re_hex t = Some (rest, g) ->
  exists m, search re_hex (pre ++ t) = Some m /\ m_groups m = g.
Proof.
  intros Hpre Hm. unfold search.
  rewrite (search_from_skip re_hex _ pre _ match_at_hex_c
             (has_char_forallb _ _ Hpre)).
  destruct t; cbn [search_from]; rewrite Hm; eexists; split; reflexivity.
Qed.

(** X16. The first [#] of a text, followed by six characters of the
    class of the pattern and then by fewer than two, is extracted with these
    six characters when the text has no alpha adjuster, whatever stands
    around it. *)
Theorem hex_colour_extracted_from_text (pre six post : str) :
  has_char "#" pre = false ->
  List.length six = 6%nat -> forallb alnum_comma six = true ->
  two_of alnum_comma post = false ->
  search re_alpha (pre ++ "#"%char :: six ++ post) = None ->
  try_match_color (pre ++ "#"%char :: six ++ post) = Ok ("#"%char :: six).
Proof.
  intros Hpre Hlen Hsix Hpost Ha.
  destruct (search_hex_in_text pre _ _ _ Hpre
              (match_at_hex_six six post Hlen Hsix Hpost)) as (m & Hm & Hg).
  unfold try_match_color, match_hex, get_alpha_adjuster.
  rewrite Hm, Ha. cbn [bind truthy].
  unfold group_val, group_str, group. rewrite Hg.
  cbn [lookup Nat.eqb truthy bind is_falsy].
  unfold get_alpha_hex. cbn [List.length]. rewrite Hlen.
  cbn [Nat.ltb Nat.leb bind truthy]. reflexivity.
Qed.

Lemma hex_colour_extracted_from_text_witness :
  try_match_color ("color(" ++ "#"%char :: "1a2B3c" ++ ")")
  = Ok ("#"%char :: ("1a2B3c" : str)).
Proof.
  apply (hex_colour_extracted_from_text "color(" "1a2B3c" ")");
    reflexivity.
Defined.

Lemma py_int16_not_hex (c7 c8 : ascii) :
  is_hex_digit c7 && is_hex_digit c8 = false ->
  alnum_comma c7 = true -> alnum_comma c8 = true ->
  py_int16 [c7; c8] = Raise ValueError.
Proof.
  intros Hh H7 H8.
  assert (H : forallb (fun a => forallb (fun b =>
            implb (alnum_comma a && alnum_comma b
                   && negb (is_hex_digit a && is_hex_digit b))
                  (match py_int16 [a; b] with
                   | Raise ValueError => true
                   | _ => false
                   end))
            all_ascii) all_ascii = true) by (vm_compute; reflexivity).
  rewrite forallb_forall in H. specialize (H c7 (all_ascii_complete c7)).
  rewrite forallb_forall in H. specialize (H c8 (all_ascii_complete c8)).
  rewrite H7, H8, Hh in H. cbn in H.
  destruct (py_int16 [c7; c8]) as [z | []]; try discriminate. reflexivity.
Qed.

(** X17. When the six characters after the first [#] are followed by
    two more characters of the class of the pattern that are not both
    hexadecimal digits, and the text has no alpha adjuster,
    [try_match_color] raises [ValueError]. *)
Theorem hex_suffix_outside_digits_raises (pre six post : str)
    (c7 c8 : ascii) :
  has_char "#" pre = false ->
  List.length six = 6%nat -> forallb alnum_comma six = true ->
  alnum_comma c7 = true -> alnum_comma c8 = true ->
  is_hex_digit c7 && is_hex_digit c8 = false ->
  search re_alpha (pre ++ "#"%char :: six ++ c7 :: c8 :: post) = None ->
  try_match_color (pre ++ "#"%char :: six ++ c7 :: c8 :: post)
  = Raise ValueError.
Proof.
  intros Hpre Hlen Hsix H7 H8 Hh Ha.
  destruct (search_hex_in_text pre _ _ _ Hpre
              (match_at_hex_eight six post c7 c8 Hlen Hsix H7 H8))
    as (m & Hm & Hg).
  unfold try_match_color, match_hex, get_alpha_adjuster.
  rewrite Hm, Ha. cbn [bind truthy].
  unfold group_val, group_str, group. rewrite Hg.
  cbn [lookup Nat.eqb truthy bind is_falsy app].
  unfold get_alpha_hex. cbn [List.length]. rewrite length_app, Hlen.
  cbn [List.length Nat.ltb Nat.leb Nat.add]. unfold slice_from.
  change ("#"%char :: six ++ [c7; c8]) with (("#"%char :: six) ++ [c7; c8]).
  rewrite skipn_app. cbn [List.length]. rewrite Hlen.
  rewrite skipn_all2 by (cbn; lia). cbn [Nat.sub skipn app].
  rewrite (py_int16_not_hex c7 c8 Hh H7 H8). reflexivity.
Qed.

Lemma hex_suffix_outside_digits_raises_witness :
  try_match_color ("" ++ "#"%char :: "backgr" ++ "o"%char :: "u"%char :: "nd")
  = Raise ValueError.
Proof.
  apply (hex_suffix_outside_digits_raises "" "backgr" "nd" "o" "u");
    reflexivity.
Defined.

(** ** Greys in the notation of hue, saturation and lightness *)

Lemma match_at_hsl_text (d1 w1 d2 w2 d3 : str) :
  all_digits d1 = true -> all_digits d2 = true -> all_digits d3 = true ->
  opt_space w1 = true -> opt_space w2 = true ->
  match_at re_hsl (hsl_text d1 w1 d2 w2 d3)
  = Some ([], [(3%nat, d3); (2%nat, d2); (1%nat, d1)]).
Proof.
  intros H1 H2 H3 Hw1 Hw2.
  destruct (all_digits_inv d1 H1) as [Hd1 Hn1].
  destruct (all_digits_inv d2 H2) as [Hd2 Hn2].
  destruct (all_digits_inv d3 H3) as [Hd3 Hn3].
  unfold match_at, re_hsl, hsl_text.
  rewrite rmatch_cat, rmatch_lit_app.
  rewrite rmatch_cat. apply group_plus_class; try assumption;
    [reflexivity|].
  cbv beta. cbn [app list_ascii_of_string].
  rewrite rmatch_cat, rmatch_chr, Ascii.eqb_refl.
  rewrite rmatch_cat. apply rmatch_opt_space;
    [assumption | apply drop_space_digits; assumption |].
  rewrite rmatch_cat. apply group_plus_class; try assumption;
    [reflexivity|].
  cbv beta. cbn [app list_ascii_of_string].
  rewrite rmatch_cat, rmatch_chr, Ascii.eqb_refl.
  rewrite rmatch_cat, rmatch_chr, Ascii.eqb_refl.
  rewrite rmatch_cat. apply rmatch_opt_space;
    [assumption | apply drop_space_digits; assumption |].
  rewrite rmatch_cat. apply group_plus_class; try assumption;
    [reflexivity|].
  cbv beta. cbn [app list_ascii_of_string].
  rewrite rmatch_cat, rmatch_chr, Ascii.eqb_refl.
  rewrite rmatch_cat, rmatch_opt_none by reflexivity.
  reflexivity.
Qed.

Lemma match_at_alpha_a (t : str) :
  match_at re_alpha t <> None -> has_char "a" t = true.
Proof.
  intros H. destruct (match_at_alpha_start t) as [Hn | [u ->]];
    [contradiction | reflexivity].
Qed.

Lemma hue_ratio (n : Z) :
  0 <= n <= 360 -> exists h, truediv n 360 = Ok h.
Proof.
  intros Hn.
  assert (H : forallb (fun i => match truediv (Z.of_nat i) 360 with
                                | Ok _ => true
                                | Raise _ => false
                                end) (seq 0 361) = true)
    by (vm_compute; reflexivity).
  rewrite forallb_forall in H. specialize (H (Z.to_nat n)).
  rewrite Z2Nat.id in H by lia.
  destruct (truediv n 360) as [h | e]; [exists h; reflexivity|].
  assert (false = true); [|discriminate]. apply H. apply in_seq. lia.
Qed.

Lemma lightness_trunc (n : Z) :
  0 <= n <= 100 ->
  exists l, truediv n 100 = Ok l
            /\ trunc l = Ok (if n =? 100 then 1 else 0).
Proof.
  intros Hn.
  assert (H : forallb (fun i =>
            match truediv (Z.of_nat i) 100 with
            | Ok l => match trunc l with
                      | Ok t => t =? (if Z.of_nat i =? 100 then 1 else 0)
                      | Raise _ => false
                      end
            | Raise _ => false
            end) (seq 0 101) = true)
    by (vm_compute; reflexivity).
  rewrite forallb_forall in H. specialize (H (Z.to_nat n)).
  rewrite Z2Nat.id in H by lia.
  assert (Hin : In (Z.to_nat n) (seq 0 101)) by (apply in_seq; lia).
  specialize (H Hin).
  destruct (truediv n 100) as [l | e]; [|discriminate].
  exists l. split; [reflexivity|].
  destruct (trunc l) as [t | e]; [|discriminate].
  apply Z.eqb_eq in H. subst t. reflexivity.
Qed.

(** X18. A colour [hsl(h, 0%, l%)], each number written with at most
    [max_str_digits] digits, [h] up to 360 and [l] up to 100, resolves to
    white when [l] is 100 and to black otherwise. *)
Theorem hsl_grey_is_black_or_white (d1 w1 d2 w2 d3 : str) :
  all_digits d1 = true -> all_digits d2 = true -> all_digits d3 = true ->
  Z.of_nat (List.length d1) <= max_str_digits ->
  Z.of_nat (List.length d2) <= max_str_digits ->
  Z.of_nat (List.length d3) <= max_str_digits ->
  opt_space w1 = true -> opt_space w2 = true ->
  digits_val 0 d1 <= 360 -> digits_val 0 d2 = 0 -> digits_val 0 d3 <= 100 ->
  try_match_color (hsl_text d1 w1 d2 w2 d3)
  = Ok (if digits_val 0 d3 =? 100 then "#ffffff" : str else "#000000" : str).
Proof.
  intros H1 H2 H3 Hk1 Hk2 Hk3 Hw1 Hw2 Hb1 Hb2 Hb3.
  destruct (all_digits_inv d1 H1) as [Hd1 _].
  destruct (all_digits_inv d2 H2) as [Hd2 _].
  destruct (all_digits_inv d3 H3) as [Hd3 _].
  set (s := hsl_text d1 w1 d2 w2 d3).
  assert (Hno : forall x, digit x = false -> space x = false ->
                  has_char x "hsl(" = false -> has_char x "," = false ->
                  has_char x "%," = false -> has_char x "%)" = false ->
                  has_char x s = false).
  { intros x Hx Hsx Hl1 Hl2 Hl3 Hl4. unfold s, hsl_text.
    rewrite !has_char_app, Hl1, Hl2, Hl3, Hl4.
    rewrite (has_char_class digit x d1 Hd1 Hx),
            (has_char_class digit x d2 Hd2 Hx),
            (has_char_class digit x d3 Hd3 Hx),
            (has_char_opt_space x w1 Hw1 Hsx),
            (has_char_opt_space x w2 Hw2 Hsx).
    reflexivity. }
  assert (Hhex : search re_hex s = None).
  { apply (search_from_none re_hex "#" match_at_hex_hash).
    apply Hno; reflexivity. }
  assert (Halpha : search re_alpha s = None).
  { apply (search_from_none re_alpha "a" match_at_alpha_a).
    apply Hno; reflexivity. }
  assert (Hrgb : search re_rgb s = None).
  { apply (search_from_none re_rgb "r").
    - intros t. unfold match_at, re_rgb. rewrite rmatch_cat. intros H.
      destruct (rmatch (Lit "rgb(") t [] _) as [a|] eqn:Hm; [|contradiction].
      apply rmatch_lit_some in Hm as [u ->]. reflexivity.
    - apply Hno; reflexivity. }
  assert (Hhsl : search re_hsl s
                 = Some {| m_start := 0; m_text := s;
                           m_groups := [(3%nat, d3); (2%nat, d2); (1%nat, d1)];
                           m_rest := [] |}).
  { unfold search. unfold s at 1, hsl_text.
    cbn [app list_ascii_of_string search_from].
    change ("h"%char :: "s"%char :: "l"%char :: "("%char
            :: d1 ++ ","%char :: w1 ++ d2 ++ "%"%char :: ","%char
            :: w2 ++ d3 ++ ["%"%char; ")"%char])
      with s.
    unfold s at 1. rewrite (match_at_hsl_text d1 w1 d2 w2 d3) by assumption.
    cbn [List.length]. rewrite Nat.sub_0_r, firstn_all. reflexivity. }
  pose proof (digits_val_bounds d1 Hd1 0 ltac:(lia)) as Hp1.
  pose proof (digits_val_bounds d3 Hd3 0 ltac:(lia)) as Hp3.
  destruct (hue_ratio (digits_val 0 d1) (conj Hp1 Hb1)) as [h Hh].
  destruct (lightness_trunc (digits_val 0 d3) (conj Hp3 Hb3))
    as (l & Hl & Ht).
  unfold try_match_color, match_hex, match_rgb, match_hsl.
  rewrite Hhex, Hrgb, Hhsl.
  cbn [bind is_falsy]. unfold group_str, group_val, group.
  cbn [m_groups lookup Nat.eqb].
  rewrite !py_int_digits by assumption. cbn [bind].
  rewrite Hh, Hb2, Hl. cbn [bind].
  unfold get_alpha_adjuster. rewrite Halpha. cbn [bind].
  change (truediv 0 100) with (Ok zero). cbn [bind].
  unfold Colorsys.hls_to_rgb.
  change (Float.eqb zero zero) with true. cbv iota. rewrite Ht.
  cbn [bind]. destruct (digits_val 0 d3 =? 100); vm_compute; reflexivity.
Qed.

Lemma hsl_grey_is_black_or_white_witness :
  try_match_color (hsl_text "210" " " "0" " " "50")
  = Ok (if digits_val 0 "50" =? 100 then "#ffffff" : str
        else "#000000" : str).
Proof.
  apply (hsl_grey_is_black_or_white "210" " " "0" " " "50");
    vm_compute; try reflexivity; discriminate.
Defined.

(** ** The table of variables *)

(** X19. With an empty table of variables every value resolves as it
    stands. *)
Theorem parse_color_empty_table (key : str) :
  parse_color key (Some []) = try_match_color key.
Proof.
  unfold parse_color. destruct (search re_var key) as [m|]; [|reflexivity].
  cbn [dict_get]. rewrite str_replace_same. reflexivity.
Qed.

(** X20. When the declared names are distinct and none of them is the
    reference text of one of them, [parse] resolves the global settings and
    the rules against the table that stores each declared value under
    [var(name)]. *)
Theorem parse_resolves_against_wrapped_table (src : source)
    (d globals_ : dict str) (rules : list (dict str)) :
  src_variables src = Some d -> d <> [] ->
  distinct (dict_keys d) = true ->
  no_reference_key (dict_keys d) = true ->
  src_globals src = Some globals_ -> src_rules src = Some rules ->
  parse src
  = (settings <- parse_settings globals_ (Some (wrapped d)) ;;
     rs <- parse_rules rules (Some (wrapped d)) ;;
     Ok {| theme_name := or_undefined (src_name src);
           theme_author := or_undefined (src_author src);
           theme_settings :=
             {| rule_name := None; rule_scope := None;
                rule_settings := settings |} :: rs |}).
Proof.
  intros Hv Hne Hd Hr Hg Hrs. unfold parse. rewrite Hv, Hg, Hrs.
  cbn [required bind]. destruct d as [| kv d']; [contradiction|].
  rewrite (wrap_variables_wrapped (kv :: d') Hd Hr). reflexivity.
Qed.

Lemma parse_resolves_against_wrapped_table_witness :
  parse {| src_name := None; src_author := None;
           src_variables := Some [("blue" : str, "#102030" : str)];
           src_globals := Some [("background" : str, "var(blue)" : str)];
           src_rules := Some [] |}
  = (settings <- parse_settings [("background" : str, "var(blue)" : str)]
                   (Some (wrapped [("blue" : str, "#102030" : str)])) ;;
     rs <- parse_rules [] (Some (wrapped [("blue" : str, "#102030" : str)])) ;;
     Ok {| theme_name := or_undefined None;
           theme_author := or_undefined None;
           theme_settings :=
             {| rule_name := None; rule_scope := None;
                rule_settings := settings |} :: rs |}).
Proof.
  apply (parse_resolves_against_wrapped_table
           {| src_name := None; src_author := None;
              src_variables := Some [("blue" : str, "#102030" : str)];
              src_globals := Some [("background" : str, "var(blue)" : str)];
              src_rules := Some [] |}
           [("blue" : str, "#102030" : str)]
           [("background" : str, "var(blue)" : str)] []);
    try reflexivity. discriminate.
Defined.
